(** * A shallow embedding of the [uri] header-only library

    Sources embedded here:
    - [include/uri/character_checks.h]  (namespace [uri::checks::characters])
    - [include/uri/elements_checks.h]   (namespace [uri::checks::elements])
    - [include/uri/URI.h]               (class [uri::URI])

    A [std::string_view] is modelled by the bytes it designates, a [char] by
    an [ascii] (eight bits).  Operations whose C++ precondition can be broken
    by the code return in the [result] type below. *)

From Stdlib Require Import ZArith Ascii String.
From stdpp Require Import base list strings gmap.

Local Open Scope Z_scope.

(** ** Bytes, views and failures *)

Abbreviation strv := (list ascii).

(** A string literal as the bytes of a view. *)
Definition str (s : string) : strv := list_ascii_of_string s.

(** The ways in which the modelled code can leave its normal path.
    [MalformedUser] and [MalformedQuery] are the two [std::runtime_error]
    throws of the parser, [OutOfRange] is the [std::out_of_range] of
    [std::string::replace], [OutOfBounds] is a read outside a view
    ([operator[]], [front] or [remove_prefix] with a broken precondition),
    and [OutOfFuel] is the model's own bound on loops. *)
Inductive error : Set :=
  | MalformedUser
  | MalformedQuery
  | OutOfRange
  | OutOfBounds
  | OutOfFuel.

Inductive result (A : Type) : Type :=
  | Ok (a : A)
  | Err (e : error).
Arguments Ok {A} a.
Arguments Err {A} e.

#[global] Instance result_ret : MRet result := fun _ a => Ok a.
#[global] Instance result_bind : MBind result := fun _ _ f m =>
  match m with
  | Ok a => f a
  | Err e => Err e
  end.

#[global] Instance error_eq_dec : EqDecision error.
Proof. solve_decision. Defined.

Definition is_ok {A} (r : result A) : bool :=
  match r with Ok _ => true | Err _ => false end.

(** [size_t] is 64 bits wide; subtraction wraps around. *)
Definition SIZE_WIDTH : Z := 64.
Definition size_t_sub (a b : Z) : Z := (a - b) mod 2 ^ SIZE_WIDTH.

(** The value of a [char] once promoted to [int] ([char] is signed). *)
Definition char_val (c : ascii) : Z :=
  let n := Z.of_N (N_of_ascii c) in
  if n <? 128 then n else n - 256.

(** A [char] converted to [size_t]. *)
Definition char_to_size_t (c : ascii) : Z := char_val c mod 2 ^ SIZE_WIDTH.

Definition char_eqb (a b : ascii) : bool := Ascii.eqb a b.
Definition char_le (a b : ascii) : bool := char_val a <=? char_val b.

(** *** [std::string_view] operations *)

Definition size (v : strv) : nat := length v.

Definition empty (v : strv) : bool :=
  match v with [] => true | _ => false end.

(** [v[i]]: reading outside the view is undefined. *)
Definition at_ (v : strv) (i : nat) : result ascii :=
  match v !! i with
  | Some c => Ok c
  | None => Err OutOfBounds
  end.

(** [v.front()]: undefined on an empty view. *)
Definition front (v : strv) : result ascii := at_ v 0.

(** [v.remove_prefix(n)]: undefined when [n > v.size()]. *)
Definition remove_prefix (n : nat) (v : strv) : result strv :=
  if (n <=? length v)%nat then Ok (drop n v) else Err OutOfBounds.

(** [v.substr(pos, n)] for [pos <= v.size()], which holds at every call. *)
Definition substr (v : strv) (pos n : nat) : strv := take n (drop pos v).

(** [v.substr(pos)]. *)
Definition substr_from (v : strv) (pos : nat) : strv := drop pos v.

Fixpoint starts_with (pat v : strv) : bool :=
  match pat, v with
  | [], _ => true
  | p :: pat', c :: v' => char_eqb p c && starts_with pat' v'
  | _ :: _, [] => false
  end.

(** [std::search] and [v.find(pat)]: the first position at which [pat]
    occurs, [None] standing for [end()] and [npos]. *)
Fixpoint search (pat v : strv) : option nat :=
  if starts_with pat v then Some 0%nat
  else match v with
       | [] => None
       | _ :: v' => S <$> search pat v'
       end.

(** [v.find(pat, pos)]. *)
Definition find_from (pat : strv) (pos : nat) (v : strv) : option nat :=
  if (pos <=? length v)%nat then (fun p => (pos + p)%nat) <$> search pat (drop pos v)
  else None.

Definition mem_char (c : ascii) (set : strv) : bool := existsb (char_eqb c) set.

(** [v.find_first_of(set)]. *)
Fixpoint find_first_of (set v : strv) : option nat :=
  match v with
  | [] => None
  | c :: v' => if mem_char c set then Some 0%nat else S <$> find_first_of set v'
  end.

(** [v.find_last_of(set)]. *)
Fixpoint find_last_of (set v : strv) : option nat :=
  match v with
  | [] => None
  | c :: v' =>
      match find_last_of set v' with
      | Some p => Some (S p)
      | None => if mem_char c set then Some 0%nat else None
      end
  end.

(** ** character_checks.h *)

Definition is_alpha (c : ascii) : bool :=
  (char_le "A" c && char_le c "Z") || (char_le "a" c && char_le c "z").

Definition is_digit (c : ascii) : bool :=
  char_le "0" c && char_le c "9".

Definition is_hex_digit (c : ascii) : bool :=
  is_digit c || (char_le "A" c && char_le c "F") || (char_le "a" c && char_le c "f").

Definition is_unreserved (c : ascii) : bool :=
  is_alpha c || is_digit c || mem_char c (str "-._~").

Definition is_subdelimiter (c : ascii) : bool :=
  mem_char c (str "!$&'()*+,;=").

(** ** elements_checks.h *)

Definition is_decimal_octet (element : strv) : bool :=
  match element with
  | [] => false
  | [e0] =>
      let value := if is_digit e0 then char_val e0 - char_val "0" else 0 in
      0 <? value
  | [e0; e1] =>
      let value :=
        if is_digit e0 && is_digit e1
        then (char_val e0 - char_val "0") * 10 + (char_val e1 - char_val "0")
        else 0 in
      (10 <=? value) && (value <? 100)
  | [e0; e1; e2] =>
      let value :=
        if is_digit e0 && is_digit e1 && is_digit e2
        then (char_val e0 - char_val "0") * 100
             + (char_val e1 - char_val "0") * 10 + (char_val e2 - char_val "0")
        else 0 in
      (100 <=? value) && (value <? 256)
  | _ => false
  end.

(** The locals of [is_IPv4] that live across its [for] loop. *)
Record ipv4_state : Type := mk_ipv4 {
  octet : list strv;
  idx : nat;
  last : nat;
  i_ : nat
}.

(** The [for] loop of [is_IPv4].  [rest] is the unread part of [element],
    that is [element[i_ ..]]; its head is [element[i_]].  [None] is the
    [return false] inside the loop. *)
Fixpoint IPv4_loop (element rest : strv) (st : ipv4_state) : option ipv4_state :=
  match rest with
  | [] => Some st
  | c :: rest' =>
      if (idx st <? 4)%nat then
        if char_eqb c "." then
          IPv4_loop element rest'
            {| octet := <[idx st := substr element (last st) (i_ st - last st)]> (octet st);
               idx := S (idx st);
               last := (i_ st + 1)%nat;
               i_ := S (i_ st) |}
        else if negb (is_digit c) then None
        else IPv4_loop element rest'
               {| octet := octet st; idx := idx st; last := last st; i_ := S (i_ st) |}
      else Some st
  end.

(** [is_IPv4].  The source names an identifier [entity] in the statement that
    captures the final octet; no such name is in scope, and the parameter
    [element] is taken for it. *)
Definition is_IPv4 (element : strv) : bool :=
  match IPv4_loop element element
          {| octet := [[]; []; []; []]; idx := 0; last := 0; i_ := 0 |} with
  | None => false
  | Some st =>
      let st' :=
        if (i_ st =? size element)%nat && negb (idx st =? 4)%nat
        then {| octet := <[idx st := substr element (last st) (size element - last st)]> (octet st);
                idx := S (idx st); last := last st; i_ := i_ st |}
        else st in
      (idx st' =? 4)%nat && forallb is_decimal_octet (octet st')
  end.

(** The percent-encoding scan shared, statement for statement, by
    [is_regular_name], [isUserCompliant], [isPathSegmentCompliant] and
    [isFragmentCompliant]: the four loops differ only in the bytes accepted
    outright, here [allowed].  [i] is the loop index; one unit of [fuel] is
    spent per iteration. *)
Fixpoint pct_loop (allowed : ascii → bool) (fuel : nat) (element : strv) (i : nat)
  : result bool :=
  if negb (i <? size element)%nat then Ok true
  else match fuel with
       | O => Err OutOfFuel
       | S fuel' =>
           c ← at_ element i;
           if allowed c then pct_loop allowed fuel' element (i + 1)%nat
           else if char_eqb c "%"
                   && (Z.of_nat i <? size_t_sub (Z.of_nat (size element)) 2)
           then
             c1 ← at_ element (i + 1)%nat;
             if is_hex_digit c1 then
               c2 ← at_ element (i + 2)%nat;
               if is_hex_digit c2 then pct_loop allowed fuel' element (i + 2 + 1)%nat
               else Ok false
             else Ok false
           else Ok false
       end.

Definition is_regular_name (element : strv) : result bool :=
  if empty element then Ok true
  else pct_loop (fun c => is_unreserved c || is_subdelimiter c)
         (size element) element 0.

(** ** URI.h *)

Inductive ParsingResult : Set := NoError | EmptyURI.

Inductive ParsingSteps : Set :=
  | Scheme | CheckAuthority | Authority | CheckSeparator | Path | Fragment | Query.

(** The data members of [class URI]; every view is held by its content. *)
Record URI : Type := mkURI {
  uri_ : strv;
  isAbsolutePath_ : bool;
  scheme_ : strv;
  user_ : strv;
  host_ : strv;
  port_ : strv;
  path_ : strv;
  queryLine_ : strv;
  fragment_ : strv;
  pathSegments_ : list strv;
  queries_ : gmap strv strv
}.

Definition set_uri (v : strv) (u : URI) : URI :=
  mkURI v (isAbsolutePath_ u) (scheme_ u) (user_ u) (host_ u) (port_ u) (path_ u)
        (queryLine_ u) (fragment_ u) (pathSegments_ u) (queries_ u).
Definition set_isAbsolutePath (b : bool) (u : URI) : URI :=
  mkURI (uri_ u) b (scheme_ u) (user_ u) (host_ u) (port_ u) (path_ u)
        (queryLine_ u) (fragment_ u) (pathSegments_ u) (queries_ u).
Definition set_scheme (v : strv) (u : URI) : URI :=
  mkURI (uri_ u) (isAbsolutePath_ u) v (user_ u) (host_ u) (port_ u) (path_ u)
        (queryLine_ u) (fragment_ u) (pathSegments_ u) (queries_ u).
Definition set_user (v : strv) (u : URI) : URI :=
  mkURI (uri_ u) (isAbsolutePath_ u) (scheme_ u) v (host_ u) (port_ u) (path_ u)
        (queryLine_ u) (fragment_ u) (pathSegments_ u) (queries_ u).
Definition set_host (v : strv) (u : URI) : URI :=
  mkURI (uri_ u) (isAbsolutePath_ u) (scheme_ u) (user_ u) v (port_ u) (path_ u)
        (queryLine_ u) (fragment_ u) (pathSegments_ u) (queries_ u).
Definition set_port (v : strv) (u : URI) : URI :=
  mkURI (uri_ u) (isAbsolutePath_ u) (scheme_ u) (user_ u) (host_ u) v (path_ u)
        (queryLine_ u) (fragment_ u) (pathSegments_ u) (queries_ u).
Definition set_path (v : strv) (u : URI) : URI :=
  mkURI (uri_ u) (isAbsolutePath_ u) (scheme_ u) (user_ u) (host_ u) (port_ u) v
        (queryLine_ u) (fragment_ u) (pathSegments_ u) (queries_ u).
Definition set_queryLine (v : strv) (u : URI) : URI :=
  mkURI (uri_ u) (isAbsolutePath_ u) (scheme_ u) (user_ u) (host_ u) (port_ u) (path_ u)
        v (fragment_ u) (pathSegments_ u) (queries_ u).
Definition set_fragment (v : strv) (u : URI) : URI :=
  mkURI (uri_ u) (isAbsolutePath_ u) (scheme_ u) (user_ u) (host_ u) (port_ u) (path_ u)
        (queryLine_ u) v (pathSegments_ u) (queries_ u).
Definition set_pathSegments (l : list strv) (u : URI) : URI :=
  mkURI (uri_ u) (isAbsolutePath_ u) (scheme_ u) (user_ u) (host_ u) (port_ u) (path_ u)
        (queryLine_ u) (fragment_ u) l (queries_ u).
Definition set_queries (m : gmap strv strv) (u : URI) : URI :=
  mkURI (uri_ u) (isAbsolutePath_ u) (scheme_ u) (user_ u) (host_ u) (port_ u) (path_ u)
        (queryLine_ u) (fragment_ u) (pathSegments_ u) m.

(** A default-constructed [URI] holding the text [uri]. *)
Definition URI_of (uri : strv) : URI :=
  mkURI uri false [] [] [] [] [] [] [] [] ∅.

Definition SCHEME_SEP : strv := str ":".
Definition AUTH_ANON : strv := str "//".
Definition USER_SEP : strv := str "@".
Definition PORT_SEP : strv := str ":".
Definition PATH_SEP : strv := str "/".
Definition QUERY_ANON : strv := str "?".
Definition QUERY_SEP : strv := str "&".
Definition FRAG_SEP : strv := str "#".
Definition KV_SEP : strv := str "=".

(** [std::optional] accessors: absent iff the field is empty. *)
Definition opt_view (v : strv) : option strv := if empty v then None else Some v.
Definition scheme (u : URI) : option strv := opt_view (scheme_ u).
Definition user (u : URI) : option strv := opt_view (user_ u).
Definition host (u : URI) : option strv := opt_view (host_ u).
Definition path (u : URI) : option strv := opt_view (path_ u).
Definition queryLine (u : URI) : option strv := opt_view (queryLine_ u).
Definition fragment (u : URI) : option strv := opt_view (fragment_ u).
Definition hasAuthority (u : URI) : bool := bool_decide (is_Some (host u)).
Definition isAbsolutePath (u : URI) : bool := isAbsolutePath_ u.
Definition string_ (u : URI) : strv := uri_ u.

(** [std::map::emplace]: an existing key keeps its value. *)
Definition emplace (k v : strv) (m : gmap strv strv) : gmap strv strv :=
  match m !! k with
  | Some _ => m
  | None => <[k := v]> m
  end.

Definition tryParseScheme (u : URI) (uri : strv) : result (URI * strv) :=
  let sep := SCHEME_SEP ++ AUTH_ANON in
  match search sep uri with
  | Some schemeSeparatorPosition =>
      let u := set_scheme (substr uri 0 schemeSeparatorPosition) u in
      uri ← remove_prefix (size (scheme_ u) + size SCHEME_SEP) uri;
      Ok (u, uri)
  | None => Ok (u, uri)
  end.

Definition tryParseUser (u : URI) (uri : strv) : result (URI * strv) :=
  match search USER_SEP uri with
  | Some userSeparatorPosition =>
      if (userSeparatorPosition =? 0)%nat then Err MalformedUser
      else
        let u := set_user (substr uri 0 userSeparatorPosition) u in
        uri ← remove_prefix (size (user_ u) + size USER_SEP) uri;
        Ok (u, uri)
  | None => Ok (u, uri)
  end.

Definition tryParseHost (u : URI) (uri : strv) : result (URI * strv) :=
  match find_last_of PORT_SEP uri with
  | Some portSeparatorPosition =>
      let u := set_host (substr uri 0 portSeparatorPosition) u in
      let u := set_port (substr_from uri (portSeparatorPosition + 1)) u in
      uri ← remove_prefix (size (host_ u) + size PORT_SEP + size (port_ u)) uri;
      Ok (u, uri)
  | None =>
      let u := set_host uri u in
      uri ← remove_prefix (size (host_ u)) uri;
      Ok (u, uri)
  end.

Definition tryParseAuthority (u : URI) (uri : strv) : result (URI * strv) :=
  let seps := PATH_SEP ++ FRAG_SEP ++ QUERY_ANON in
  let authority :=
    match find_first_of seps uri with
    | Some pos => substr uri 0 pos
    | None => uri
    end in
  let initialAuthSize := size authority in
  '(u, authority) ← tryParseUser u authority;
  '(u, authority) ← (if negb (empty authority) then tryParseHost u authority
                     else Ok (u, authority));
  uri ← remove_prefix initialAuthSize uri;
  Ok (u, uri).

(** The [while] loop of [tryParsePath] over [pathView]. *)
Fixpoint path_loop (fuel : nat) (pathView : strv) (pathSegments : list strv)
  : result (list strv) :=
  if empty pathView then Ok pathSegments
  else match fuel with
       | O => Err OutOfFuel
       | S fuel' =>
           match search PATH_SEP pathView with
           | Some pos =>
               let pathSegments := pathSegments ++ [take (pos + 1) pathView] in
               pathView ← remove_prefix (pos + 1) pathView;
               path_loop fuel' pathView pathSegments
           | None =>
               (* swap with the freshly appended empty segment *)
               path_loop fuel' [] (pathSegments ++ [pathView])
           end
       end.

Definition tryParsePath (u : URI) (uri : strv) : result (URI * strv) :=
  uri ← (if hasAuthority u then remove_prefix (size PATH_SEP) uri else Ok uri);
  let seps := QUERY_ANON ++ FRAG_SEP in
  let u := set_path (match find_first_of seps uri with
                     | Some pos => substr uri 0 pos
                     | None => uri
                     end) u in
  c ← front uri;
  c' ← front PATH_SEP;
  let u := if char_eqb c c' then set_isAbsolutePath true u else u in
  pathSegments ← path_loop (size (path_ u)) (path_ u) (pathSegments_ u);
  let u := set_pathSegments pathSegments u in
  uri ← remove_prefix (size (path_ u)) uri;
  Ok (u, uri).

Definition tryParseFragment (u : URI) (uri : strv) : result (URI * strv) :=
  uri ← remove_prefix (size FRAG_SEP) uri;
  let u := set_fragment (substr_from uri 0) u in
  uri ← remove_prefix (size (fragment_ u)) uri;
  Ok (u, uri).

(** One key-value piece of the query line. *)
Definition emplace_piece (queryPiece : strv) (queries : gmap strv strv)
  : result (gmap strv strv) :=
  match search KV_SEP queryPiece with
  | None => Err MalformedQuery
  | Some equal =>
      Ok (emplace (substr queryPiece 0 equal)
                  (substr queryPiece (equal + 1) (size queryPiece - (equal + 1)))
                  queries)
  end.

(** The [while] loop of [tryParseQuery] over [queryView]. *)
Fixpoint query_loop (fuel : nat) (queryView : strv) (queries : gmap strv strv)
  : result (gmap strv strv) :=
  if empty queryView then Ok queries
  else match fuel with
       | O => Err OutOfFuel
       | S fuel' =>
           match search QUERY_SEP queryView with
           | Some pos =>
               let queryPiece := substr queryView 0 pos in
               queries ← emplace_piece queryPiece queries;
               queryView ← remove_prefix (size queryPiece) queryView;
               queryView ← remove_prefix (size QUERY_SEP) queryView;
               query_loop fuel' queryView queries
           | None =>
               let queryPiece := queryView in
               queries ← emplace_piece queryPiece queries;
               query_loop fuel' [] queries
           end
       end.

Definition tryParseQuery (u : URI) (uri : strv) : result (URI * strv) :=
  let u := set_queryLine (match search FRAG_SEP uri with
                          | Some pos => substr uri 0 pos
                          | None => uri
                          end) u in
  queries ← query_loop (size (queryLine_ u)) (queryLine_ u) (queries_ u);
  let u := set_queries queries u in
  uri ← remove_prefix (size (queryLine_ u)) uri;
  Ok (u, uri).

(** One turn of the [switch] inside the loop of [parse]. *)
Definition parse_step (step : ParsingSteps) (u : URI) (uriView : strv)
  : result (ParsingSteps * URI * strv) :=
  match step with
  | Scheme =>
      '(u, uriView) ← tryParseScheme u uriView;
      Ok (CheckAuthority, u, uriView)
  | CheckAuthority =>
      let authAnon :=
        if (size AUTH_ANON <? size uriView)%nat
           && bool_decide (substr uriView 0 (size AUTH_ANON) = AUTH_ANON)
        then AUTH_ANON else [] in
      let nxtPathSep := find_from PATH_SEP (size authAnon) uriView in
      if negb (empty authAnon)
         || match nxtPathSep with
            | None => true
            | Some n => (0 <? n)%nat || empty (substr_from uriView n)
            end
      then
        uriView ← (if negb (empty authAnon)
                   then remove_prefix (size AUTH_ANON) uriView else Ok uriView);
        Ok (Authority, u, uriView)
      else Ok (CheckSeparator, u, uriView)
  | Authority =>
      '(u, uriView) ← tryParseAuthority u uriView;
      Ok (CheckSeparator, u, uriView)
  | CheckSeparator =>
      c ← front uriView;
      p ← front PATH_SEP;
      q ← front QUERY_ANON;
      if char_eqb c p then Ok (Path, u, uriView)
      else if char_eqb c q then
        uriView ← remove_prefix (size QUERY_ANON) uriView;
        Ok (Query, u, uriView)
      else
        uriView ← remove_prefix (size FRAG_SEP) uriView;
        Ok (Fragment, u, uriView)
  | Path =>
      '(u, uriView) ← tryParsePath u uriView;
      Ok (CheckSeparator, u, uriView)
  | Query =>
      '(u, uriView) ← tryParseQuery u uriView;
      Ok (Fragment, u, uriView)
  | Fragment =>
      '(u, uriView) ← tryParseFragment u uriView;
      Ok (Fragment, u, uriView)
  end.

(** The [while (!uriView.empty())] loop of [parse]. *)
Fixpoint parse_loop (fuel : nat) (step : ParsingSteps) (u : URI) (uriView : strv)
  : result URI :=
  if empty uriView then Ok u
  else match fuel with
       | O => Err OutOfFuel
       | S fuel' =>
           '(step, u, uriView) ← parse_step step u uriView;
           parse_loop fuel' step u uriView
       end.

(** No run of the loop takes more than eight turns (see [parse_loop_fuel]). *)
Definition PARSE_FUEL : nat := 8.

Definition parse (u : URI) : result (ParsingResult * URI) :=
  if empty (uri_ u) then Ok (EmptyURI, u)
  else
    u ← parse_loop PARSE_FUEL Scheme u (uri_ u);
    Ok (NoError, u).

(** The constructors [URI(std::string const&)] and [URI(std::string&&)]. *)
Definition URI_ctor (uri : strv) : result URI :=
  r ← parse (URI_of uri);
  Ok r.2.

Definition isUserCompliant (user : strv) : result bool :=
  if empty user then Ok true
  else pct_loop (fun c => is_unreserved c || is_subdelimiter c || char_eqb c ":")
         (size user) user 0.

Definition isPathSegmentCompliant (segment : strv) : result bool :=
  pct_loop (fun c => is_unreserved c || is_subdelimiter c || mem_char c (str ":@/"))
    (size segment) segment 0.

Definition isFragmentCompliant (fragment : strv) : result bool :=
  if empty fragment then Ok true
  else pct_loop (fun c => is_unreserved c || is_subdelimiter c || mem_char c (str ":@/?"))
         (size fragment) fragment 0.

Definition isQueryCompliant (query : strv) : result bool :=
  isFragmentCompliant query.

(** [std::string::replace(pos, len, str)]. *)
Definition string_replace (s : strv) (pos : Z) (len : nat) (new : strv) : result strv :=
  if Z.of_nat (size s) <? pos then Err OutOfRange
  else Ok (take (Z.to_nat pos) s ++ new ++ drop (Z.to_nat pos + len) s).

(** [std::string::append(str, subpos, sublen)]. *)
Definition string_append (s : strv) (str : strv) (subpos sublen : nat) : result strv :=
  if (size str <? subpos)%nat then Err OutOfRange
  else Ok (s ++ substr str subpos sublen).

(** [setScheme].  The new [scheme_] view designates the first
    [newScheme.size()] bytes of the buffer; the other views keep the content
    they had. *)
Definition setScheme (u : URI) (newScheme : strv) : result URI :=
  uri ← (if bool_decide (is_Some (scheme u)) then
           c ← at_ (scheme_ u) 0;
           string_replace (uri_ u) (char_to_size_t c) (size (scheme_ u)) newScheme
         else
           let scheme := newScheme ++ SCHEME_SEP in
           string_append (uri_ u) scheme (size scheme) 0);
  let u := set_uri uri u in
  Ok (set_scheme (take (size newScheme) (uri_ u)) u).

(** ** The rest of elements_checks.h *)

(** The range-[for] of [is_IPv6] over the bytes of [element], with its two
    flags. *)
Fixpoint IPv6_loop (rest : strv) (colonPresence reconIPv4 : bool) : bool :=
  match rest with
  | [] => true
  | c :: rest' =>
      if is_hex_digit c then IPv6_loop rest' colonPresence reconIPv4
      else if char_eqb c ":" && negb reconIPv4 then IPv6_loop rest' true reconIPv4
      else if char_eqb c "." && colonPresence then IPv6_loop rest' colonPresence true
      else false
  end.

Definition is_IPv6 (element : strv) : bool := IPv6_loop element false false.

(** [is_IPLiteral].  The subtraction [size - 2] is only reached on a view
    whose first byte is ['['] and whose last byte is [']'], hence of two
    bytes at least; [size_t_sub] keeps the wrap-around all the same. *)
Definition is_IPLiteral (element : strv) : result bool :=
  let res := negb (empty element) in
  if res then
    c0 ← at_ element 0;
    cl ← at_ element (size element - 1);
    let res := char_eqb c0 "[" && char_eqb cl "]" in
    if res then
      let address :=
        substr element 1 (Z.to_nat (size_t_sub (Z.of_nat (size element)) 2)) in
      Ok (negb (empty address) && is_IPv6 address)
    else Ok res
  else Ok res.

(** ** The rest of URI.h *)

Definition isSchemeCharacter (c : ascii) : bool :=
  is_alpha c || is_digit c || mem_char c (str "+-.").

Definition isSchemeCompliant (scheme : strv) : bool :=
  match scheme with
  | [] => false
  | c :: rest =>
      if negb (is_alpha c) then false
      else if existsb (fun c => negb (isSchemeCharacter c)) rest then false
      else true
  end.

(** [isHostCompliant]; the source spells the namespace of [is_IPv4] as
    [checks::entities], which does not exist, and [checks::elements] is
    taken for it. *)
Definition isHostCompliant (host : strv) : result bool :=
  match find_first_of (str "[") host with
  | Some _ => is_IPLiteral host
  | None => if is_IPv4 host then Ok true else is_regular_name host
  end.

Definition isPortCompliant (port : strv) : bool := forallb is_digit port.

(** [a && b] where [b] is evaluated only when [a] holds. *)
Definition and_then (a : result bool) (b : result bool) : result bool :=
  a ≫= fun x : bool => if x then b else Ok false.

(** [std::all_of] with a predicate that can fail. *)
Fixpoint all_of (f : strv → result bool) (l : list strv) : result bool :=
  match l with
  | [] => Ok true
  | x :: l' => and_then (f x) (all_of f l')
  end.

Definition isCompliant (u : URI) : result bool :=
  and_then (Ok (isSchemeCompliant (scheme_ u)))
  (and_then (isUserCompliant (user_ u))
  (and_then (and_then (Ok (bool_decide (is_Some (host u)))) (isHostCompliant (host_ u)))
  (and_then (Ok (isPortCompliant (port_ u)))
  (and_then (all_of isPathSegmentCompliant (pathSegments_ u))
  (and_then (isQueryCompliant (queryLine_ u))
            (isFragmentCompliant (fragment_ u))))))).

(** [path(i)]: [i] is a [size_t]; [pathSegments_.at] throws when the index
    is not below the size. *)
Definition path_at (u : URI) (i : Z) : result (option strv) :=
  if bool_decide (is_Some (path u)) then
    let i := Z.min i (size_t_sub (Z.of_nat (length (pathSegments_ u))) 1) in
    if i <? Z.of_nat (length (pathSegments_ u)) then
      match pathSegments_ u !! Z.to_nat i with
      | Some segment => Ok (Some segment)
      | None => Err OutOfRange
      end
    else Err OutOfRange
  else Ok None.

(** An [int] is 32 bits wide; a [size_t] converted to it wraps. *)
Definition to_int (x : Z) : Z := (x + 2 ^ 31) mod 2 ^ 32 - 2 ^ 31.
Definition to_size_t (x : Z) : Z := x mod 2 ^ SIZE_WIDTH.

(** [pathUntil(i)].  [std::accumulate] is called with the initial value [0],
    an [int], so the running sum is an [int]: each step converts it to
    [size_t], adds the size of the segment and converts the sum back.
    Stepping the end iterator past the end of the vector is undefined. *)
Definition pathUntil (u : URI) (i : Z) : result (option strv) :=
  if bool_decide (is_Some (path u)) then
    let i := Z.min i (size_t_sub (Z.of_nat (length (pathSegments_ u))) 1) in
    if to_size_t (i + 1) <=? Z.of_nat (length (pathSegments_ u)) then
      let length :=
        foldl (fun a b => to_int (to_size_t (to_size_t a + Z.of_nat (size b)))) 0
              (take (Z.to_nat (to_size_t (i + 1))) (pathSegments_ u)) in
      Ok (Some (substr (path_ u) 0
                       (Z.to_nat (Z.min (to_size_t length) (Z.of_nat (size (path_ u)))))))
    else Err OutOfBounds
  else Ok None.

Definition pathSize (u : URI) : option nat :=
  if bool_decide (is_Some (path u)) then Some (length (pathSegments_ u)) else None.

(** [queries()]: absent when the map is empty, a copy of it otherwise. *)
Definition queries (u : URI) : option (gmap strv strv) :=
  if bool_decide (queries_ u = ∅) then None
  else Some (map_fold (fun key value res => emplace key value res) ∅ (queries_ u)).

Definition hasQueries (u : URI) : bool := bool_decide (is_Some (queries u)).
Definition hasPath (u : URI) : bool := bool_decide (is_Some (path u)).
Definition hasFragment (u : URI) : bool := bool_decide (is_Some (fragment u)).

(** [clear()]; the flag [isAbsolutePath_] is not among the members it
    resets. *)
Definition clear (u : URI) : URI :=
  mkURI [] (isAbsolutePath_ u) [] [] [] [] [] [] [] [] ∅.

(** ** Reference notions used in the statements

    These follow the wording of the specification, not the code. *)

(** The number written by a run of decimal digits. *)
Definition decimal_value (s : strv) : Z :=
  foldl (fun acc c => acc * 10 + (char_val c - char_val "0")) 0 s.

(** Splitting on a separator byte: [n] separators give [n + 1] pieces. *)
Fixpoint split_on (sep : ascii) (v : strv) : list strv :=
  match v with
  | [] => [[]]
  | c :: v' =>
      if char_eqb c sep then [] :: split_on sep v'
      else match split_on sep v' with
           | p :: ps => (c :: p) :: ps
           | [] => [[c]]
           end
  end.

(** The pieces of a query text that the parser looks at: the ['&']-separated
    pieces, without the empty piece that an empty text or a final ['&']
    leaves at the end. *)
Definition query_pieces (q : strv) : list strv :=
  let ps := split_on "&" q in
  if bool_decide (list.last ps = Some []) then removelast ps else ps.

Definition has_kv_sep (piece : strv) : bool := bool_decide ("="%char ∈ piece).

(** The text before the first occurrence of [sep] (all of it when there is
    none), and the text after that occurrence. *)
Fixpoint before (sep : ascii) (v : strv) : strv :=
  match v with
  | [] => []
  | c :: v' => if char_eqb c sep then [] else c :: before sep v'
  end.
Fixpoint after (sep : ascii) (v : strv) : strv :=
  match v with
  | [] => []
  | c :: v' => if char_eqb c sep then v' else after sep v'
  end.

(** Key and value of a piece: the text before and after its first ['=']. *)
Definition piece_key (piece : strv) : strv := before "=" piece.
Definition piece_value (piece : strv) : strv := after "=" piece.

(** The query text of a cursor: everything before the first ['#']. *)
Definition query_text (uri : strv) : strv := before "#" uri.

(** The map obtained by inserting the pieces in order, first key wins. *)
Definition emplace_pieces (pieces : list strv) (queries : gmap strv strv)
  : gmap strv strv :=
  foldl (fun m p => emplace (piece_key p) (piece_value p) m) queries pieces.

(** A cursor that is exhausted or stands on one of the bytes of [set]. *)
Definition starts_in (set rest : strv) : Prop :=
  rest = [] ∨ ∃ c r, rest = c :: r ∧ mem_char c set = true.

(** The fields written by the authority step, and those written by the
    path step. *)
Definition authority_fields (u : URI) : strv * strv * strv :=
  (user_ u, host_ u, port_ u).
Definition path_fields (u : URI) : strv * list strv * bool :=
  (path_ u, pathSegments_ u, isAbsolutePath_ u).

(** No path has been stored yet. *)
Definition path_fresh (u : URI) : Prop := path_fields u = ([], [], false).

(** The stored path is the concatenation of its segments, and the flag says
    whether it begins with ['/']. *)
Definition path_ok (u : URI) : Prop :=
  concat (pathSegments_ u) = path_ u
  ∧ (isAbsolutePath_ u = true ↔ ∃ t, path_ u = "/"%char :: t).

(** What the loop of [parse] maintains about the path fields: the path step
    is entered with fresh fields, and is not entered again afterwards. *)
Definition path_inv (step : ParsingSteps) (u : URI) (uriView : strv) : Prop :=
  match step with
  | Scheme | CheckAuthority | Authority | Path => path_fresh u
  | CheckSeparator => path_fresh u ∨ (path_ok u ∧ starts_with PATH_SEP uriView = false)
  | Query | Fragment => path_ok u
  end.

(** How many turns of the loop of [parse] are left at most. *)
Definition steps_bound (step : ParsingSteps) (uriView : strv) : nat :=
  match step with
  | Scheme => 8
  | CheckAuthority => 7
  | Authority => 6
  | CheckSeparator => if starts_with PATH_SEP uriView then 5 else 3
  | Path => 4
  | Query => 2
  | Fragment => 1
  end.

(** The userinfo as it is written in an authority: the user and its ['@']. *)
Definition user_part (user : strv) : strv :=
  if empty user then [] else user ++ USER_SEP.

(** The text [authority] is the userinfo, the host and the port of [u] as an
    authority writes them: the port, when there is one, after a [':']. *)
Definition authority_text (u : URI) (authority : strv) : Prop :=
  ∃ tail, authority = user_part (user_ u) ++ host_ u ++ tail
          ∧ (tail = [] ∧ port_ u = [] ∨ tail = PORT_SEP ++ port_ u).

(** The input [s] holds the authority of [u] in one piece, followed by
    nothing or by the start of a path, a query or a fragment. *)
Definition auth_shape (s : strv) (u : URI) : Prop :=
  ∃ pre authority post,
    s = pre ++ authority ++ post ∧ authority_text u authority
    ∧ starts_in (PATH_SEP ++ FRAG_SEP ++ QUERY_ANON) post.

(** What the loop of [parse] maintains about the authority fields: they are
    empty until the authority step, whose cursor is a suffix of the input. *)
Definition auth_inv (s : strv) (step : ParsingSteps) (u : URI) (uriView : strv) : Prop :=
  match step with
  | Scheme | CheckAuthority | Authority =>
      authority_fields u = ([], [], []) ∧ ∃ pre, s = pre ++ uriView
  | _ => auth_shape s u
  end.

Definition parse_inv (s : strv) (step : ParsingSteps) (u : URI) (uriView : strv) : Prop :=
  path_inv step u uriView ∧ auth_inv s step u uriView.

Example is_decimal_octet_7 : is_decimal_octet (str "7") = true.
Proof. reflexivity. Qed.
Example is_decimal_octet_255 : is_decimal_octet (str "255") = true.
Proof. reflexivity. Qed.
Example is_decimal_octet_256 : is_decimal_octet (str "256") = false.
Proof. reflexivity. Qed.
Example is_IPv4_ok : is_IPv4 (str "192.168.1.10") = true.
Proof. reflexivity. Qed.
Example is_IPv4_three : is_IPv4 (str "192.168.1") = false.
Proof. reflexivity. Qed.

(** * Properties *)

(** ** The [result] monad *)

Lemma bind_Ok {A B} (f : A → result B) (m : result A) (b : B) :
  m ≫= f = Ok b → ∃ a, m = Ok a ∧ f a = Ok b.
Proof. destruct m as [a|e]; simpl; [eauto | discriminate]. Qed.

Lemma bind_Err {A B} (f : A → result B) (m : result A) (e : error) :
  m ≫= f = Err e → m = Err e ∨ ∃ a, m = Ok a ∧ f a = Err e.
Proof. destruct m as [a|e']; simpl; [eauto | intros [= ->]; auto]. Qed.

(** Split a successful bind found among the hypotheses. *)
Ltac inv_bind H :=
  let a := fresh "a" in
  let Ha := fresh "Ha" in
  apply bind_Ok in H; destruct H as (a & Ha & H).

(** ** Characters *)

Lemma char_val_range c : -128 ≤ char_val c < 128.
Proof. destruct c as [[] [] [] [] [] [] [] []]; vm_compute; split; congruence. Qed.

Lemma char_val_inj a b : char_val a = char_val b → a = b.
Proof.
  destruct a as [[] [] [] [] [] [] [] []]; destruct b as [[] [] [] [] [] [] [] []];
    vm_compute; congruence.
Qed.

Lemma char_eqb_eq a b : char_eqb a b = true ↔ a = b.
Proof. apply Ascii.eqb_eq. Qed.

Lemma char_eqb_neq a b : char_eqb a b = false ↔ a ≠ b.
Proof. apply Ascii.eqb_neq. Qed.

Lemma char_eqb_sym a b : char_eqb a b = char_eqb b a.
Proof. apply Ascii.eqb_sym. Qed.

Lemma is_digit_range c : is_digit c = true ↔ 48 ≤ char_val c ≤ 57.
Proof.
  unfold is_digit, char_le. change (char_val "0") with 48. change (char_val "9") with 57.
  rewrite andb_true_iff, !Z.leb_le. tauto.
Qed.

(** ** [is_decimal_octet] *)

(** The code accepts exactly the one to three digit numerals without a
    leading ['0'] whose value is at most 255. *)
Lemma is_decimal_octet_iff (s : strv) :
  is_decimal_octet s = true ↔
  (1 ≤ length s ≤ 3)%nat ∧ forallb is_digit s = true
  ∧ head s ≠ Some "0"%char ∧ decimal_value s ≤ 255.
Proof.
  assert (Hz : ∀ c, Some c ≠ Some "0"%char ↔ char_val c ≠ 48).
  { intros c. split.
    - intros H E. apply H. f_equal. apply char_val_inj. exact E.
    - intros H [= ->]. apply H. reflexivity. }
  destruct s as [|a [|b [|c [|d t]]]]; unfold decimal_value; simpl;
    change (char_val "0") with 48.
  - split; [discriminate | intros [[] _]; lia].
  - rewrite Hz, andb_true_r. destruct (is_digit a) eqn:Ha.
    + apply is_digit_range in Ha. rewrite Z.ltb_lt. intuition lia.
    + split; [discriminate | intros (_ & ? & _); discriminate].
  - rewrite Hz, andb_true_r. destruct (is_digit a) eqn:Ha; simpl.
    + destruct (is_digit b) eqn:Hb; simpl.
      * apply is_digit_range in Ha, Hb. rewrite andb_true_iff, Z.leb_le, Z.ltb_lt.
        intuition lia.
      * split; [discriminate | intros (_ & ? & _); discriminate].
    + split; [discriminate | intros (_ & ? & _); discriminate].
  - rewrite Hz, andb_true_r. destruct (is_digit a) eqn:Ha; simpl.
    + destruct (is_digit b) eqn:Hb; simpl.
      * destruct (is_digit c) eqn:Hc; simpl.
        -- apply is_digit_range in Ha, Hb, Hc. rewrite andb_true_iff, Z.leb_le, Z.ltb_lt.
           intuition lia.
        -- split; [discriminate | intros (_ & ? & _); discriminate].
      * split; [discriminate | intros (_ & ? & _); discriminate].
    + split; [discriminate | intros (_ & ? & _); discriminate].
  - split; [discriminate | intros [[] _]; simpl in *; lia].
Qed.

(** C3. [is_decimal_octet] rejects the one-character string ["0"]: the range
    test of the one-digit case is [value > 0], although its own comment reads
    "valid: 0-9". *)
Theorem is_decimal_octet_zero_rejected :
  is_decimal_octet (str "0") = false.
Proof. reflexivity. Qed.

(** ** [is_IPv4] *)

(** Once four dots have been seen the loop stops, and what follows the fourth
    dot is never looked at. *)
Lemma is_IPv4_ignores_tail (rest : strv) :
  is_IPv4 (str "1.2.3.4." ++ rest) = true.
Proof.
  destruct rest as [|c rest]; reflexivity.
Qed.

(** C4. [is_IPv4] accepts ["1.2.3.4.5"] and ["1.2.3.4."]: the loop leaves as
    soon as the fourth dot has been stored, and the final test never asks
    whether the whole input was read. *)
Theorem is_IPv4_accepts_trailing_content :
  is_IPv4 (str "1.2.3.4.5") = true ∧ is_IPv4 (str "1.2.3.4.") = true.
Proof. split; reflexivity. Qed.

(** ** The percent-encoding scan *)

Section pct_scan.
Variable allowed : ascii → bool.
Hypothesis allowed_pct : allowed "%" = false.

Lemma at_lt (v : strv) (i : nat) :
  (i < length v)%nat → ∃ c, at_ v i = Ok c.
Proof.
  intros H. unfold at_. destruct (lookup_lt_is_Some_2 v i H) as [c ->]. eauto.
Qed.

(** On a view of two bytes or more the guard [i < size - 2] does not wrap,
    and every read stays inside the view. *)
Lemma pct_loop_in_bounds (fuel : nat) (element : strv) (i : nat) :
  (2 ≤ length element)%nat → Z.of_nat (length element) < 2 ^ SIZE_WIDTH →
  (length element - i ≤ fuel)%nat →
  ∃ b, pct_loop allowed fuel element i = Ok b.
Proof.
  intros H2 Hmax. revert i. induction fuel as [|fuel IH]; intros i Hfuel; simpl.
  - destruct (i <? size element)%nat eqn:Hi; simpl; [|eauto].
    apply Nat.ltb_lt in Hi. unfold size in Hi. lia.
  - destruct (i <? size element)%nat eqn:Hi; simpl; [|eauto].
    apply Nat.ltb_lt in Hi. unfold size in *.
    destruct (at_lt element i Hi) as [c ->]. simpl.
    destruct (allowed c); [apply IH; lia|].
    destruct (char_eqb c "%"); simpl; [|eauto].
    unfold size_t_sub. rewrite Z.mod_small by lia.
    destruct (Z.of_nat i <? Z.of_nat (length element) - 2) eqn:Hg; [|eauto].
    apply Z.ltb_lt in Hg.
    destruct (at_lt element (i + 1)) as [c1 ->]; [lia|]. simpl.
    destruct (is_hex_digit c1); [|eauto].
    destruct (at_lt element (i + 2)) as [c2 ->]; [lia|]. simpl.
    destruct (is_hex_digit c2); [|eauto].
    apply IH. lia.
Qed.

(** On a view of one byte the guard wraps to [2^64 - 1]. *)
Lemma pct_loop_one_byte (c : ascii) :
  pct_loop allowed 1 [c] 0 =
  if allowed c then Ok true
  else if char_eqb c "%" then Err OutOfBounds else Ok false.
Proof.
  simpl. destruct (allowed c); [reflexivity|].
  destruct (char_eqb c "%"); reflexivity.
Qed.

(** The scan reads outside the view on the one-byte view ["%"] and on no
    other view. *)
Lemma pct_loop_out_of_bounds_iff (element : strv) :
  Z.of_nat (length element) < 2 ^ SIZE_WIDTH →
  pct_loop allowed (size element) element 0 = Err OutOfBounds ↔ element = str "%".
Proof.
  intros Hmax. destruct element as [|c [|c' t]].
  - simpl. split; discriminate.
  - change (size [c]) with 1%nat. rewrite pct_loop_one_byte.
    destruct (allowed c) eqn:Ha.
    + split; [discriminate|]. intros [= ->]. congruence.
    + destruct (char_eqb c "%") eqn:Hc.
      * apply char_eqb_eq in Hc as ->. split; reflexivity.
      * apply char_eqb_neq in Hc. split; [discriminate|]. intros [= ->]. congruence.
  - destruct (pct_loop_in_bounds (size (c :: c' :: t)) (c :: c' :: t) 0) as [b Hb];
      [simpl; lia | assumption | unfold size; lia |].
    rewrite Hb. split; discriminate.
Qed.
End pct_scan.

Lemma is_regular_name_out_of_bounds_iff (element : strv) :
  Z.of_nat (length element) < 2 ^ SIZE_WIDTH →
  is_regular_name element = Err OutOfBounds ↔ element = str "%".
Proof.
  intros H. unfold is_regular_name. destruct (empty element) eqn:He.
  - destruct element; [|discriminate]. split; discriminate.
  - apply pct_loop_out_of_bounds_iff; [reflexivity | assumption].
Qed.

Lemma isUserCompliant_out_of_bounds_iff (user : strv) :
  Z.of_nat (length user) < 2 ^ SIZE_WIDTH →
  isUserCompliant user = Err OutOfBounds ↔ user = str "%".
Proof.
  intros H. unfold isUserCompliant. destruct (empty user) eqn:He.
  - destruct user; [|discriminate]. split; discriminate.
  - apply pct_loop_out_of_bounds_iff; [reflexivity | assumption].
Qed.

Lemma isPathSegmentCompliant_out_of_bounds_iff (segment : strv) :
  Z.of_nat (length segment) < 2 ^ SIZE_WIDTH →
  isPathSegmentCompliant segment = Err OutOfBounds ↔ segment = str "%".
Proof.
  intros H. apply pct_loop_out_of_bounds_iff; [reflexivity | assumption].
Qed.

Lemma isFragmentCompliant_out_of_bounds_iff (fragment : strv) :
  Z.of_nat (length fragment) < 2 ^ SIZE_WIDTH →
  isFragmentCompliant fragment = Err OutOfBounds ↔ fragment = str "%".
Proof.
  intros H. unfold isFragmentCompliant. destruct (empty fragment) eqn:He.
  - destruct fragment; [|discriminate]. split; discriminate.
  - apply pct_loop_out_of_bounds_iff; [reflexivity | assumption].
Qed.

(** C10. On the one-character view ["%"] the guard [i < size - 2] is
    [0 < 2^64 - 1] in [size_t] arithmetic, so it holds, and [is_regular_name],
    [isUserCompliant], [isPathSegmentCompliant] and [isFragmentCompliant] all
    go on to read [element[1]], one byte past the end of the view. *)
Theorem pct_guard_wraps_on_one_byte :
  size_t_sub (Z.of_nat (size (str "%"))) 2 = 2 ^ 64 - 1
  ∧ is_regular_name (str "%") = Err OutOfBounds
  ∧ isUserCompliant (str "%") = Err OutOfBounds
  ∧ isPathSegmentCompliant (str "%") = Err OutOfBounds
  ∧ isFragmentCompliant (str "%") = Err OutOfBounds.
Proof. repeat split; reflexivity. Qed.

(** ** End-to-end runs of the parser *)

(** C1 (as the code has it). Parsing ["mailto:bob@local"] finds no ["://"],
    so the scheme stays absent; the authority is the whole input, its user is
    ["mailto:bob"] and its host is ["local"]; there is no port, no path, no
    query and no fragment. *)
Theorem parse_mailto :
  URI_ctor (str "mailto:bob@local") =
  Ok {| uri_ := str "mailto:bob@local";
        isAbsolutePath_ := false;
        scheme_ := [];
        user_ := str "mailto:bob";
        host_ := str "local";
        port_ := [];
        path_ := [];
        queryLine_ := [];
        fragment_ := [];
        pathSegments_ := [];
        queries_ := ∅ |}.
Proof. vm_compute. reflexivity. Qed.

(** C1 fails as stated: the parse of ["mailto:bob@local"] does not yield
    scheme ["mailto"], user ["bob"], host ["local"]. *)
Lemma parse_mailto_not_as_claimed :
  ¬ ∃ u, URI_ctor (str "mailto:bob@local") = Ok u
         ∧ scheme u = Some (str "mailto") ∧ user u = Some (str "bob")
         ∧ host u = Some (str "local")
         ∧ path u = None ∧ queryLine u = None ∧ fragment u = None.
Proof.
  intros (u & Hu & Hs & _). vm_compute in Hu. injection Hu as <-. discriminate Hs.
Qed.

(** C9. Parsing ["http://host/"] reaches [tryParsePath] with the cursor
    ["/"]; the leading ['/'] is consumed because an authority was found, and
    [uri.front()] is then called on the empty cursor. *)
Theorem parse_trailing_slash_reads_empty_cursor :
  tryParsePath (mkURI (str "http://host/") false (str "http") [] (str "host")
                      [] [] [] [] [] ∅) (str "/") = Err OutOfBounds
  ∧ URI_ctor (str "http://host/") = Err OutOfBounds.
Proof. split; vm_compute; reflexivity. Qed.

(** ** [setScheme] *)

(** Without a scheme the text is never changed: the substring appended
    starts at the end of the new scheme text and has length zero. *)
Lemma setScheme_absent (u : URI) (newScheme : strv) :
  scheme u = None →
  ∃ u', setScheme u newScheme = Ok u' ∧ string_ u' = string_ u.
Proof.
  intros Hs. unfold setScheme. rewrite Hs. simpl.
  unfold string_append, substr.
  rewrite Nat.ltb_irrefl. simpl. rewrite take_0, app_nil_r.
  eexists. split; reflexivity.
Qed.

(** With a scheme the edit happens at the position given by the code of the
    first scheme byte, not at the start of the text. *)
Lemma setScheme_present (u : URI) (newScheme : strv) (c : ascii) (t : strv) :
  scheme_ u = c :: t →
  string_ <$> (match setScheme u newScheme with Ok u' => Some u' | Err _ => None end) =
  if Z.of_nat (size (uri_ u)) <? char_to_size_t c then None
  else Some (take (Z.to_nat (char_to_size_t c)) (uri_ u) ++ newScheme
             ++ drop (Z.to_nat (char_to_size_t c) + size (c :: t)) (uri_ u)).
Proof.
  intros Hs. unfold setScheme, scheme, opt_view. rewrite Hs. simpl.
  unfold string_replace.
  destruct (Z.of_nat (size (uri_ u)) <? char_to_size_t c); reflexivity.
Qed.

(** C8. [setScheme] on the parse of ["http://host"] passes the first scheme
    byte ['h'] (104) as the position to [std::string::replace], which is past
    the end of the eleven-byte text and throws; on the parse of
    ["//host/path"], which has no scheme, it appends the empty substring taken
    at the end of the new scheme text, and the text is left as it was. *)
Theorem setScheme_does_not_edit_as_claimed :
  (∃ u, URI_ctor (str "http://host") = Ok u ∧ scheme u = Some (str "http")
        ∧ setScheme u (str "ftp") = Err OutOfRange)
  ∧ (∃ u u', URI_ctor (str "//host/path") = Ok u ∧ scheme u = None
             ∧ setScheme u (str "http") = Ok u'
             ∧ string_ u' = str "//host/path").
Proof.
  split.
  - eexists. split; [vm_compute; reflexivity|]. split; vm_compute; reflexivity.
  - eexists. eexists. split; [vm_compute; reflexivity|].
    split; [reflexivity|]. split; vm_compute; reflexivity.
Qed.

(** ** Views *)

Lemma empty_true (v : strv) : empty v = true ↔ v = [].
Proof. destruct v; simpl; split; congruence. Qed.

Lemma empty_false (v : strv) : empty v = false ↔ v ≠ [].
Proof. destruct v; simpl; split; congruence. Qed.

Lemma remove_prefix_Ok (n : nat) (v v' : strv) :
  remove_prefix n v = Ok v' → (n ≤ length v)%nat ∧ v' = drop n v.
Proof.
  unfold remove_prefix. destruct (n <=? length v)%nat eqn:H; [|discriminate].
  apply Nat.leb_le in H. intros [= <-]. auto.
Qed.

Lemma remove_prefix_le (n : nat) (v : strv) :
  (n ≤ length v)%nat → remove_prefix n v = Ok (drop n v).
Proof.
  intros H. unfold remove_prefix. apply Nat.leb_le in H. rewrite H. reflexivity.
Qed.

Lemma starts_with_length (pat v : strv) :
  starts_with pat v = true → (length pat ≤ length v)%nat.
Proof.
  revert v. induction pat as [|x pat IH]; intros v; simpl; [intros _; lia|].
  destruct v as [|y v]; [discriminate|]. intros H.
  apply andb_true_iff in H as [_ H]. apply IH in H. simpl. lia.
Qed.

Lemma search_bound (pat v : strv) (p : nat) :
  search pat v = Some p → (p + length pat ≤ length v)%nat.
Proof.
  revert p. induction v as [|c v IH]; intros p.
  - simpl. destruct pat; simpl; [intros [= <-]; simpl; lia | discriminate].
  - cbn [search]. destruct (starts_with pat (c :: v)) eqn:Hs.
    + intros [= <-]. apply starts_with_length in Hs. lia.
    + destruct (search pat v) as [q|] eqn:Hq; [|discriminate].
      intros [= <-]. specialize (IH q eq_refl). simpl. lia.
Qed.

(** Searching for one byte: the view splits at the position found, and the
    byte does not occur before it. *)
Lemma search_char_Some (c : ascii) (v : strv) (p : nat) :
  search [c] v = Some p →
  v = take p v ++ c :: drop (S p) v ∧ c ∉ take p v.
Proof.
  revert p. induction v as [|x v IH]; intros p; simpl; [discriminate|].
  rewrite andb_true_r. destruct (char_eqb c x) eqn:Hc.
  - apply char_eqb_eq in Hc as <-. intros [= <-]. simpl. rewrite drop_0.
    split; [reflexivity | apply not_elem_of_nil].
  - apply char_eqb_neq in Hc.
    destruct (search [c] v) as [q|] eqn:Hq; [|discriminate].
    intros [= <-]. destruct (IH q eq_refl) as [E N]. simpl. split.
    + f_equal. exact E.
    + rewrite elem_of_cons. intros [?|?]; [congruence | contradiction].
Qed.

Lemma search_char_None (c : ascii) (v : strv) :
  search [c] v = None → c ∉ v.
Proof.
  induction v as [|x v IH]; simpl; [intros _; apply not_elem_of_nil|].
  rewrite andb_true_r. destruct (char_eqb c x) eqn:Hc; [discriminate|].
  apply char_eqb_neq in Hc.
  destruct (search [c] v) as [q|] eqn:Hq; [discriminate|].
  intros _. rewrite elem_of_cons. intros [?|?]; [congruence|]. apply IH; auto.
Qed.

Lemma find_first_of_Some (set v : strv) (p : nat) :
  find_first_of set v = Some p →
  ∃ c, v = take p v ++ c :: drop (S p) v ∧ mem_char c set = true
       ∧ Forall (fun x => mem_char x set = false) (take p v).
Proof.
  revert p. induction v as [|x v IH]; intros p; simpl; [discriminate|].
  destruct (mem_char x set) eqn:Hx.
  - intros [= <-]. exists x. simpl. rewrite drop_0. auto.
  - destruct (find_first_of set v) as [q|] eqn:Hq; [|discriminate].
    intros [= <-]. destruct (IH q eq_refl) as (c & E & Hc & Hall).
    exists c. simpl. split; [f_equal; exact E|]. split; [exact Hc|].
    constructor; assumption.
Qed.

Lemma find_first_of_lt (set v : strv) (p : nat) :
  find_first_of set v = Some p → (p < length v)%nat.
Proof.
  revert p. induction v as [|x v IH]; intros p; simpl; [discriminate|].
  destruct (mem_char x set); [intros [= <-]; lia|].
  destruct (find_first_of set v) as [q|]; [|discriminate].
  intros [= <-]. specialize (IH q eq_refl). lia.
Qed.

Lemma find_first_of_None (set v : strv) :
  find_first_of set v = None → Forall (fun x => mem_char x set = false) v.
Proof.
  induction v as [|x v IH]; simpl; [constructor|].
  destruct (mem_char x set) eqn:Hx; [discriminate|].
  destruct (find_first_of set v); [discriminate|]. intros _. constructor; auto.
Qed.

Lemma find_last_of_Some (set v : strv) (p : nat) :
  find_last_of set v = Some p →
  ∃ c, v = take p v ++ c :: drop (S p) v ∧ mem_char c set = true.
Proof.
  revert p. induction v as [|x v IH]; intros p; simpl; [discriminate|].
  destruct (find_last_of set v) as [q|] eqn:Hq.
  - intros [= <-]. destruct (IH q eq_refl) as (c & E & Hc).
    exists c. simpl. split; [f_equal; exact E | exact Hc].
  - destruct (mem_char x set) eqn:Hx; [|discriminate].
    intros [= <-]. exists x. simpl. rewrite drop_0. auto.
Qed.

Lemma until_first_of (set v : strv) :
  let part := match find_first_of set v with
              | Some pos => substr v 0 pos
              | None => v
              end in
  v = part ++ drop (size part) v ∧ starts_in set (drop (size part) v)
  ∧ Forall (fun x => mem_char x set = false) part.
Proof.
  simpl. destruct (find_first_of set v) as [p|] eqn:Hf.
  - destruct (find_first_of_Some _ _ _ Hf) as (c & E & Hc & Hall).
    unfold substr, size. rewrite drop_0.
    pose proof (find_first_of_lt _ _ _ Hf) as Hp.
    rewrite length_take, Nat.min_l by lia.
    split; [symmetry; apply take_drop|]. split; [|exact Hall].
    right. exists c, (drop (S p) v). split; [|exact Hc].
    rewrite E at 1. rewrite drop_app_length'; [reflexivity|].
    rewrite length_take. lia.
  - unfold size. rewrite drop_all, app_nil_r. split; [reflexivity|].
    split; [left; reflexivity | apply find_first_of_None; exact Hf].
Qed.

(** ** The query line *)

Lemma search_char_before (c : ascii) (v : strv) (p : nat) :
  search [c] v = Some p → take p v = before c v ∧ drop (S p) v = after c v.
Proof.
  revert p. induction v as [|x v IH]; intros p; simpl; [discriminate|].
  rewrite andb_true_r, (char_eqb_sym x c).
  destruct (char_eqb c x).
  - intros [= <-]. simpl. rewrite drop_0. auto.
  - destruct (search [c] v) as [q|]; [|discriminate].
    intros [= <-]. destruct (IH q eq_refl) as [E1 E2]. simpl. rewrite E1. auto.
Qed.

Lemma search_char_None_before (c : ascii) (v : strv) :
  search [c] v = None → before c v = v.
Proof.
  induction v as [|x v IH]; simpl; [reflexivity|].
  rewrite andb_true_r, (char_eqb_sym x c).
  destruct (char_eqb c x); [discriminate|].
  destruct (search [c] v); [discriminate|]. intros _. rewrite IH; reflexivity.
Qed.

Lemma search_char_lt (c : ascii) (v : strv) (p : nat) :
  search [c] v = Some p → (p < length v)%nat.
Proof. intros H. apply search_bound in H. simpl in H. lia. Qed.

(** The code's way of cutting a view at its first [sep] is [before]. *)
Lemma cut_is_before (c : ascii) (v : strv) :
  match search [c] v with
  | Some pos => substr v 0 pos
  | None => v
  end = before c v.
Proof.
  destruct (search [c] v) as [p|] eqn:H.
  - unfold substr. rewrite drop_0. apply search_char_before. exact H.
  - symmetry. apply search_char_None_before. exact H.
Qed.

Lemma before_length (c : ascii) (v : strv) : (length (before c v) ≤ length v)%nat.
Proof.
  induction v as [|x v IH]; simpl; [lia|]. destruct (char_eqb x c); simpl; lia.
Qed.

Lemma emplace_piece_spec (piece : strv) (m : gmap strv strv) :
  emplace_piece piece m =
  if has_kv_sep piece then Ok (emplace (piece_key piece) (piece_value piece) m)
  else Err MalformedQuery.
Proof.
  unfold emplace_piece, has_kv_sep, piece_key, piece_value.
  change KV_SEP with ["="%char].
  destruct (search ["="%char] piece) as [e|] eqn:H.
  - destruct (search_char_Some _ _ _ H) as [E _].
    destruct (search_char_before _ _ _ H) as [Hb Ha].
    rewrite bool_decide_eq_true_2.
    + unfold substr, size. rewrite drop_0, Hb.
      replace (e + 1)%nat with (S e) by lia. rewrite Ha.
      rewrite take_ge; [reflexivity|].
      rewrite <- Ha, length_drop. lia.
    + rewrite E. apply elem_of_app. right. apply elem_of_cons. auto.
  - apply search_char_None in H. rewrite bool_decide_eq_false_2 by exact H.
    reflexivity.
Qed.

Lemma forallb_false_exists {A} (f : A → bool) (l : list A) :
  forallb f l = false → ∃ x, x ∈ l ∧ f x = false.
Proof.
  induction l as [|a l IH]; simpl; [discriminate|].
  destruct (f a) eqn:Ha; simpl.
  - intros H. destruct (IH H) as (x & Hin & Hx). exists x.
    split; [apply elem_of_cons; auto | exact Hx].
  - intros _. exists a. split; [apply elem_of_cons; auto | exact Ha].
Qed.

Lemma split_on_not_nil (sep : ascii) (v : strv) : split_on sep v ≠ [].
Proof.
  destruct v as [|c v]; simpl; [discriminate|].
  destruct (char_eqb c sep); [discriminate|].
  destruct (split_on sep v); discriminate.
Qed.

Lemma split_on_Some (sep : ascii) (v : strv) (pos : nat) :
  search [sep] v = Some pos →
  split_on sep v = take pos v :: split_on sep (drop (S pos) v).
Proof.
  revert pos. induction v as [|x v IH]; intros pos; simpl; [discriminate|].
  rewrite andb_true_r, (char_eqb_sym sep x).
  destruct (char_eqb x sep).
  - intros [= <-]. simpl. rewrite drop_0. reflexivity.
  - destruct (search [sep] v) as [q|]; [|discriminate].
    intros [= <-]. rewrite (IH q eq_refl). reflexivity.
Qed.

Lemma split_on_None (sep : ascii) (v : strv) :
  search [sep] v = None → split_on sep v = [v].
Proof.
  induction v as [|x v IH]; simpl; [reflexivity|].
  rewrite andb_true_r, (char_eqb_sym sep x).
  destruct (char_eqb x sep); [discriminate|].
  destruct (search [sep] v); [discriminate|]. intros _. rewrite IH; reflexivity.
Qed.

Lemma query_pieces_nil : query_pieces [] = [].
Proof. reflexivity. Qed.

Lemma query_pieces_Some (qv : strv) (pos : nat) :
  search QUERY_SEP qv = Some pos →
  query_pieces qv = take pos qv :: query_pieces (drop (S pos) qv).
Proof.
  intros H. unfold query_pieces. rewrite (split_on_Some _ _ _ H).
  pose proof (split_on_not_nil "&" (drop (S pos) qv)) as Hne.
  destruct (split_on "&" (drop (S pos) qv)) as [|a l]; [congruence|].
  change (list.last (take pos qv :: a :: l)) with (list.last (a :: l)).
  change (removelast (take pos qv :: a :: l)) with (take pos qv :: removelast (a :: l)).
  destruct (bool_decide (list.last (a :: l) = Some [])); reflexivity.
Qed.

Lemma query_pieces_None (qv : strv) :
  qv ≠ [] → search QUERY_SEP qv = None → query_pieces qv = [qv].
Proof.
  intros Hne H. unfold query_pieces. rewrite (split_on_None _ _ H). simpl.
  rewrite bool_decide_eq_false_2; [reflexivity|]. congruence.
Qed.

(** The loop of [tryParseQuery] inserts the pieces of the query text one
    after the other and stops at the first piece without ['=']; the fuel it
    is given is never used up. *)
Lemma query_loop_spec (fuel : nat) (qv : strv) (m : gmap strv strv) :
  (length qv ≤ fuel)%nat →
  query_loop fuel qv m =
  if forallb has_kv_sep (query_pieces qv)
  then Ok (emplace_pieces (query_pieces qv) m)
  else Err MalformedQuery.
Proof.
  revert qv m. induction fuel as [|fuel IH]; intros qv m Hlen.
  - destruct qv; [reflexivity | simpl in Hlen; lia].
  - destruct qv as [|x qv]; [reflexivity|].
    cbn [query_loop empty].
    destruct (search QUERY_SEP (x :: qv)) as [pos|] eqn:Hs.
    + rewrite (query_pieces_Some _ _ Hs). cbn [forallb emplace_pieces foldl].
      pose proof (search_char_lt _ _ _ Hs) as Hpos.
      change (substr (x :: qv) 0 pos) with (take pos (x :: qv)).
      rewrite emplace_piece_spec.
      destruct (has_kv_sep (take pos (x :: qv))); [|reflexivity].
      cbn [mbind result_bind andb].
      unfold size. rewrite length_take, Nat.min_l by lia.
      rewrite remove_prefix_le by lia. cbn [mbind result_bind].
      change (length QUERY_SEP) with 1%nat.
      rewrite remove_prefix_le by (rewrite length_drop; lia).
      cbn [mbind result_bind]. rewrite drop_drop.
      replace (pos + 1)%nat with (S pos) by lia.
      rewrite IH by (rewrite length_drop; simpl in *; lia).
      reflexivity.
    + assert (Hne : x :: qv ≠ []) by discriminate.
      rewrite (query_pieces_None _ Hne Hs).
      cbn [forallb emplace_pieces foldl]. rewrite emplace_piece_spec, andb_true_r.
      destruct (has_kv_sep (x :: qv)); [|reflexivity].
      cbn [mbind result_bind]. destruct fuel; reflexivity.
Qed.

Lemma tryParseQuery_eq (u : URI) (uri : strv) :
  tryParseQuery u uri =
  if forallb has_kv_sep (query_pieces (query_text uri))
  then Ok (set_queries (emplace_pieces (query_pieces (query_text uri)) (queries_ u))
                       (set_queryLine (query_text uri) u),
           drop (size (query_text uri)) uri)
  else Err MalformedQuery.
Proof.
  unfold tryParseQuery. change FRAG_SEP with ["#"%char].
  rewrite cut_is_before. fold (query_text uri).
  cbn [queryLine_ set_queryLine queries_].
  rewrite query_loop_spec by reflexivity.
  destruct (forallb has_kv_sep (query_pieces (query_text uri))); [|reflexivity].
  cbn [mbind result_bind queryLine_ set_queries].
  rewrite remove_prefix_le by apply before_length.
  reflexivity.
Qed.

(** C7 (as the code has it). At the query component the parse fails with
    [MalformedQuery] exactly when one of the ['&']-separated pieces of the
    query text has no ['='], where the empty piece left at the end by an
    empty query text or by a final ['&'] is not counted; otherwise every
    counted piece is split at its first ['='] into key and value and inserted
    in order, an earlier key keeping its value. *)
Theorem tryParseQuery_malformed_iff (u : URI) (uri : strv) :
  (tryParseQuery u uri = Err MalformedQuery
   ↔ ∃ piece, piece ∈ query_pieces (query_text uri) ∧ "="%char ∉ piece)
  ∧ tryParseQuery u uri =
    if forallb has_kv_sep (query_pieces (query_text uri))
    then Ok (set_queries (emplace_pieces (query_pieces (query_text uri)) (queries_ u))
                         (set_queryLine (query_text uri) u),
             drop (size (query_text uri)) uri)
    else Err MalformedQuery.
Proof.
  split; [|apply tryParseQuery_eq].
  rewrite tryParseQuery_eq.
  destruct (forallb has_kv_sep (query_pieces (query_text uri))) eqn:Hall.
  - split; [discriminate|]. intros (piece & Hin & Hno).
    rewrite forallb_forall in Hall. apply list_elem_of_In in Hin.
    specialize (Hall _ Hin). unfold has_kv_sep in Hall.
    apply bool_decide_eq_true_1 in Hall. contradiction.
  - split; [intros _ | reflexivity].
    apply forallb_false_exists in Hall as (piece & Hin & Hp). exists piece.
    split; [exact Hin|].
    unfold has_kv_sep in Hp. apply bool_decide_eq_false_1 in Hp. exact Hp.
Qed.

(** ** The path *)

Lemma path_loop_nil (fuel : nat) (segs : list strv) : path_loop fuel [] segs = Ok segs.
Proof. destruct fuel; reflexivity. Qed.

(** The loop of [tryParsePath] cuts its view into segments whose
    concatenation is that view; the fuel it is given is never used up. *)
Lemma path_loop_concat (fuel : nat) (pathView : strv) (segs : list strv) :
  (length pathView ≤ fuel)%nat →
  ∃ segs', path_loop fuel pathView segs = Ok (segs ++ segs') ∧ concat segs' = pathView.
Proof.
  revert pathView segs. induction fuel as [|fuel IH]; intros pv segs Hlen.
  - destruct pv; [|simpl in Hlen; lia]. exists []. rewrite app_nil_r. auto.
  - destruct pv as [|x pv].
    { exists []. rewrite app_nil_r. auto. }
    cbn [path_loop empty]. change PATH_SEP with ["/"%char].
    destruct (search ["/"%char] (x :: pv)) as [pos|] eqn:Hs.
    + pose proof (search_char_lt _ _ _ Hs) as Hpos.
      rewrite remove_prefix_le by lia. cbn [mbind result_bind].
      destruct (IH (drop (pos + 1) (x :: pv)) (segs ++ [take (pos + 1) (x :: pv)]))
        as (segs' & -> & Hc).
      { rewrite length_drop. simpl in *. lia. }
      exists (take (pos + 1) (x :: pv) :: segs'). split.
      * rewrite <- app_assoc. reflexivity.
      * cbn [concat]. rewrite Hc. apply take_drop.
    + rewrite path_loop_nil. exists [x :: pv]. split; [reflexivity|].
      simpl. rewrite app_nil_r. reflexivity.
Qed.

Lemma front_starts_with (v : strv) (c p : ascii) :
  front v = Ok c → starts_with [p] v = char_eqb c p.
Proof.
  destruct v as [|x v]; [discriminate|]. intros [= ->].
  cbn [starts_with]. rewrite andb_true_r. apply char_eqb_sym.
Qed.

Lemma tryParsePath_Ok (u : URI) (uri : strv) (u' : URI) (rest : strv) :
  tryParsePath u uri = Ok (u', rest) →
  ∃ uri1,
    (if hasAuthority u then ∃ c, uri = c :: uri1 else uri = uri1)
    ∧ uri1 = path_ u' ++ rest
    ∧ starts_in (QUERY_ANON ++ FRAG_SEP) rest
    ∧ Forall (fun x => mem_char x (QUERY_ANON ++ FRAG_SEP) = false) (path_ u')
    ∧ (∃ segs, pathSegments_ u' = pathSegments_ u ++ segs ∧ concat segs = path_ u')
    ∧ isAbsolutePath_ u' = starts_with PATH_SEP uri1 || isAbsolutePath_ u
    ∧ authority_fields u' = authority_fields u.
Proof.
  unfold tryParsePath. intros H.
  inv_bind H. rename a into uri1. exists uri1.
  split.
  { destruct (hasAuthority u).
    - apply remove_prefix_Ok in Ha as [Hl ->]. destruct uri as [|c uri]; [simpl in Hl; lia|].
      exists c. reflexivity.
    - injection Ha as ->. reflexivity. }
  clear Ha.
  destruct (until_first_of (QUERY_ANON ++ FRAG_SEP) uri1) as (Hsplit & Hrest & Hall).
  set (part := match find_first_of (QUERY_ANON ++ FRAG_SEP) uri1 with
               | Some pos => substr uri1 0 pos
               | None => uri1
               end) in *.
  inv_bind H. rename a into c. rename Ha into Hfront.
  change (front PATH_SEP) with (Ok "/"%char) in H.
  cbn [mbind result_bind] in H.
  change PATH_SEP with ["/"%char].
  rewrite (front_starts_with _ _ "/" Hfront). clear Hfront.
  destruct (path_loop_concat (size part) part (pathSegments_ u)) as (segs' & Hl & Hc);
    [reflexivity|].
  assert (Hlen : (size part ≤ length uri1)%nat).
  { pose proof (f_equal length Hsplit) as E. rewrite length_app in E.
    unfold size. lia. }
  destruct (char_eqb c "/");
    cbn [path_ set_path set_isAbsolutePath set_pathSegments pathSegments_] in H;
    rewrite Hl in H; cbn [mbind result_bind path_ set_pathSegments] in H;
    (rewrite remove_prefix_le in H by exact Hlen);
    cbn [mbind result_bind] in H; injection H as <- <-;
    cbn [path_ set_path set_isAbsolutePath set_pathSegments pathSegments_
         isAbsolutePath_ orb];
    (split; [exact Hsplit|]); (split; [exact Hrest|]); (split; [exact Hall|]);
    (split; [exists segs'; auto|]); split; reflexivity.
Qed.

(** ** Scheme, user, host and authority *)

Lemma tryParseScheme_Ok (u : URI) (uri : strv) :
  ∃ u' uri', tryParseScheme u uri = Ok (u', uri')
    ∧ authority_fields u' = authority_fields u ∧ path_fields u' = path_fields u
    ∧ ∃ pre, uri = pre ++ uri'.
Proof.
  unfold tryParseScheme. destruct (search (SCHEME_SEP ++ AUTH_ANON) uri) as [p|] eqn:Hs.
  - apply search_bound in Hs. change (length (SCHEME_SEP ++ AUTH_ANON)) with 3%nat in Hs.
    cbn [scheme_ set_scheme]. unfold substr, size. rewrite drop_0, length_take.
    change (length SCHEME_SEP) with 1%nat.
    rewrite remove_prefix_le by lia. cbn [mbind result_bind].
    eexists _, _. split; [reflexivity|]. split; [reflexivity|]. split; [reflexivity|].
    eexists. symmetry. apply take_drop.
  - exists u, uri. split; [reflexivity|]. split; [reflexivity|]. split; [reflexivity|].
    exists []. reflexivity.
Qed.

Lemma tryParseUser_cases (u : URI) (uri : strv) :
  (tryParseUser u uri = Err MalformedUser ∧ ∃ r, uri = "@"%char :: r)
  ∨ ∃ u' uri', tryParseUser u uri = Ok (u', uri')
      ∧ host_ u' = host_ u ∧ port_ u' = port_ u ∧ path_fields u' = path_fields u
      ∧ ((user_ u' = user_ u ∧ uri' = uri ∧ "@"%char ∉ uri)
         ∨ (user_ u' ≠ [] ∧ uri = user_ u' ++ USER_SEP ++ uri' ∧ "@"%char ∉ user_ u')).
Proof.
  unfold tryParseUser. change USER_SEP with ["@"%char].
  destruct (search ["@"%char] uri) as [p|] eqn:Hs.
  - destruct (search_char_Some _ _ _ Hs) as [E Hn].
    pose proof (search_char_lt _ _ _ Hs) as Hp.
    destruct p as [|p].
    + left. split; [reflexivity|]. simpl in E. rewrite E. eauto.
    + right. cbn [Nat.eqb user_ set_user]. unfold substr, size.
      rewrite drop_0, length_take. change (length ["@"%char]) with 1%nat.
      rewrite remove_prefix_le by lia. cbn [mbind result_bind].
      eexists _, _. split; [reflexivity|]. cbn [host_ port_ set_user user_].
      split; [reflexivity|]. split; [reflexivity|]. split; [reflexivity|].
      right. split.
      * destruct uri; [simpl in Hp; lia | discriminate].
      * split; [|exact Hn]. rewrite Nat.min_l by lia.
        replace (S p + 1)%nat with (S (S p)) by lia. exact E.
  - right. exists u, uri. split; [reflexivity|]. split; [reflexivity|].
    split; [reflexivity|]. split; [reflexivity|]. left.
    split; [reflexivity|]. split; [reflexivity|]. apply search_char_None. exact Hs.
Qed.

Lemma find_last_of_lt (set v : strv) (p : nat) :
  find_last_of set v = Some p → (p < length v)%nat.
Proof.
  intros H. destruct (find_last_of_Some _ _ _ H) as (c & E & _).
  destruct (decide (p < length v)%nat) as [|Hge]; [assumption|].
  rewrite take_ge, drop_ge in E by lia.
  apply (f_equal length) in E. rewrite length_app in E. simpl in E. lia.
Qed.

Lemma find_last_of_None (set v : strv) :
  find_last_of set v = None → Forall (fun x => mem_char x set = false) v.
Proof.
  induction v as [|x v IH]; simpl; [constructor|].
  destruct (find_last_of set v); [discriminate|].
  destruct (mem_char x set) eqn:Hx; [discriminate|]. intros _. constructor; auto.
Qed.

(** Nothing of [set] occurs after the position that [find_last_of] gives. *)
Lemma find_last_of_after (set v : strv) (p : nat) :
  find_last_of set v = Some p →
  Forall (fun x => mem_char x set = false) (drop (S p) v).
Proof.
  revert p. induction v as [|x v IH]; intros p; simpl; [discriminate|].
  destruct (find_last_of set v) as [q|] eqn:Hq.
  - intros [= <-]. apply IH. reflexivity.
  - destruct (mem_char x set); [|discriminate]. intros [= <-].
    rewrite drop_0. apply find_last_of_None. exact Hq.
Qed.

Lemma tryParseHost_Ok (u : URI) (uri : strv) :
  ∃ u', tryParseHost u uri = Ok (u', [])
    ∧ user_ u' = user_ u ∧ path_fields u' = path_fields u
    ∧ ((host_ u' = uri ∧ port_ u' = port_ u
        ∧ Forall (fun x => mem_char x PORT_SEP = false) uri)
       ∨ (uri = host_ u' ++ PORT_SEP ++ port_ u'
          ∧ Forall (fun x => mem_char x PORT_SEP = false) (port_ u'))).
Proof.
  unfold tryParseHost. destruct (find_last_of PORT_SEP uri) as [p|] eqn:Hf.
  - pose proof (find_last_of_lt _ _ _ Hf) as Hp.
    pose proof (find_last_of_after _ _ _ Hf) as Hafter.
    destruct (find_last_of_Some _ _ _ Hf) as (c & E & Hc).
    assert (c = ":"%char) as ->.
    { unfold mem_char in Hc. simpl in Hc. rewrite orb_false_r in Hc.
      apply char_eqb_eq in Hc. exact Hc. }
    cbn [host_ port_ set_host set_port]. unfold substr, substr_from, size.
    rewrite drop_0, length_take, length_drop. change (length PORT_SEP) with 1%nat.
    rewrite remove_prefix_le by lia. cbn [mbind result_bind].
    rewrite (drop_ge uri (p `min` length uri + 1 + (length uri - (p + 1)))) by lia.
    eexists. split; [reflexivity|]. cbn [user_ host_ port_ set_host set_port].
    split; [reflexivity|]. split; [reflexivity|]. right.
    replace (p + 1)%nat with (S p) by lia. split; [exact E | exact Hafter].
  - cbn [host_ set_host]. rewrite remove_prefix_le by reflexivity.
    cbn [mbind result_bind]. unfold size. rewrite drop_all.
    eexists. split; [reflexivity|]. cbn [user_ host_ port_ set_host].
    split; [reflexivity|]. split; [reflexivity|]. left.
    split; [reflexivity|]. split; [reflexivity|]. apply find_last_of_None. exact Hf.
Qed.

Lemma user_part_nil : user_part [] = [].
Proof. reflexivity. Qed.

Lemma user_part_cons (user : strv) : user ≠ [] → user_part user = user ++ USER_SEP.
Proof. destruct user; [congruence | reflexivity]. Qed.

(** [tryParseAuthority] throws exactly on a cursor that starts with ['@'];
    otherwise it cuts the authority off the cursor and, when the authority
    fields were empty before, the text it cut is what they now spell. *)
Lemma tryParseAuthority_cases (u : URI) (uri : strv) :
  (tryParseAuthority u uri = Err MalformedUser ∧ ∃ r, uri = "@"%char :: r)
  ∨ ∃ u' uri' authority, tryParseAuthority u uri = Ok (u', uri')
      ∧ uri = authority ++ uri'
      ∧ starts_in (PATH_SEP ++ FRAG_SEP ++ QUERY_ANON) uri'
      ∧ Forall (fun x => mem_char x (PATH_SEP ++ FRAG_SEP ++ QUERY_ANON) = false) authority
      ∧ path_fields u' = path_fields u
      ∧ (authority_fields u = ([], [], []) → authority_text u' authority).
Proof.
  unfold tryParseAuthority.
  destruct (until_first_of (PATH_SEP ++ FRAG_SEP ++ QUERY_ANON) uri) as (Hsplit & Hrest & Hall).
  set (authority := match find_first_of (PATH_SEP ++ FRAG_SEP ++ QUERY_ANON) uri with
                    | Some pos => substr uri 0 pos
                    | None => uri
                    end) in *.
  assert (Hlen : (size authority ≤ length uri)%nat).
  { pose proof (f_equal length Hsplit) as E. rewrite length_app in E. unfold size. lia. }
  destruct (tryParseUser_cases u authority)
    as [[-> [r Hr]] | (u1 & a1 & -> & Hh & Hp & Hpath & Huser)].
  - left. split; [reflexivity|]. rewrite Hsplit, Hr. eauto.
  - right. cbn [mbind result_bind].
    destruct a1 as [|x a1].
    + cbn [empty negb mbind result_bind]. rewrite remove_prefix_le by exact Hlen.
      cbn [mbind result_bind]. eexists _, _, authority. split; [reflexivity|].
      split; [exact Hsplit|]. split; [exact Hrest|]. split; [exact Hall|].
      split; [exact Hpath|].
      intros [= Hu0 Hh0 Hp0]. exists []. rewrite Hh, Hp, Hh0, Hp0.
      split; [|left; auto]. rewrite !app_nil_r.
      destruct Huser as [(Hu1 & E & _) | (Hne & E & _)].
      * rewrite Hu1, Hu0, <- E. reflexivity.
      * rewrite (user_part_cons _ Hne), E, app_nil_r. reflexivity.
    + cbn [empty negb].
      destruct (tryParseHost_Ok u1 (x :: a1)) as (u2 & -> & Hu2 & Hpath2 & Hhost).
      cbn [mbind result_bind]. rewrite remove_prefix_le by exact Hlen.
      cbn [mbind result_bind]. eexists _, _, authority. split; [reflexivity|].
      split; [exact Hsplit|]. split; [exact Hrest|]. split; [exact Hall|].
      split; [congruence|].
      intros [= Hu0 Hh0 Hp0]. unfold authority_text. rewrite Hu2.
      assert (Ha : authority = user_part (user_ u1) ++ x :: a1).
      { destruct Huser as [(Hu1 & E & _) | (Hne & E & _)].
        - rewrite Hu1, Hu0, <- E. reflexivity.
        - rewrite (user_part_cons _ Hne), E, <- app_assoc. reflexivity. }
      destruct Hhost as [(Hh2 & Hp2 & _) | (E2 & _)].
      * exists []. rewrite Hh2, Hp2, Hp, Hp0, app_nil_r. split; [exact Ha | left; auto].
      * exists (PORT_SEP ++ port_ u2). split; [|right; reflexivity].
        rewrite Ha, E2. reflexivity.
Qed.

Lemma tryParseFragment_cons (u : URI) (c : ascii) (uri : strv) :
  tryParseFragment u (c :: uri) = Ok (set_fragment uri u, []).
Proof.
  unfold tryParseFragment. change (size FRAG_SEP) with 1%nat.
  rewrite remove_prefix_le by (simpl; lia). cbn [mbind result_bind].
  unfold substr_from. cbn [fragment_ set_fragment]. rewrite drop_0.
  rewrite remove_prefix_le by (simpl; unfold size; rewrite length_drop; lia).
  cbn [mbind result_bind]. simpl drop at 2. rewrite drop_0. unfold size.
  rewrite drop_all. reflexivity.
Qed.

(** ** The loop of [parse] *)

Lemma starts_in_not_slash (set rest : strv) :
  mem_char "/" set = false → starts_in set rest → starts_with PATH_SEP rest = false.
Proof.
  intros Hset [-> | (c & r & -> & Hc)]; [reflexivity|].
  change PATH_SEP with ["/"%char]. cbn [starts_with]. rewrite andb_true_r.
  destruct (char_eqb "/" c) eqn:E; [|reflexivity].
  apply char_eqb_eq in E as <-. congruence.
Qed.

Lemma path_fresh_ok (u : URI) : path_fresh u → path_ok u.
Proof.
  intros [= Hp Hs Ha]. unfold path_ok. rewrite Hp, Hs, Ha.
  split; [reflexivity|]. split; [discriminate | intros [t [=]]].
Qed.

(** The step [CheckAuthority] leaves the fields alone, drops at most the
    leading ["//"], and sends a cursor on to [CheckSeparator] untouched. *)
Lemma parse_step_CheckAuthority (u : URI) (v : strv) :
  ∃ step' v', parse_step CheckAuthority u v = Ok (step', u, v')
    ∧ (∃ pre, v = pre ++ v')
    ∧ (step' = Authority ∨ step' = CheckSeparator ∧ v' = v).
Proof.
  cbn [parse_step].
  destruct ((size AUTH_ANON <? size v)%nat
            && bool_decide (substr v 0 (size AUTH_ANON) = AUTH_ANON)) eqn:Ha.
  - cbn [empty negb orb AUTH_ANON str list_ascii_of_string].
    apply andb_true_iff in Ha as [Hl _]. apply Nat.ltb_lt in Hl.
    change (size AUTH_ANON) with 2%nat in *. unfold size in Hl.
    change (size ["/"%char; "/"%char]) with 2%nat.
    rewrite remove_prefix_le by lia. cbn [mbind result_bind].
    eexists _, _. split; [reflexivity|]. split; [|auto].
    exists (take 2 v). symmetry. apply take_drop.
  - cbn [empty negb orb].
    destruct (match find_from PATH_SEP (size []) v with
              | Some n => (0 <? n)%nat || empty (substr_from v n)
              | None => true
              end).
    + cbn [mbind result_bind]. eexists _, _. split; [reflexivity|].
      split; [exists []; reflexivity | auto].
    + eexists _, _. split; [reflexivity|]. split; [exists []; reflexivity | auto].
Qed.

(** The step [CheckSeparator] on a cursor that is not exhausted. *)
Lemma parse_step_CheckSeparator (u : URI) (c : ascii) (v : strv) :
  parse_step CheckSeparator u (c :: v) =
  if char_eqb c "/" then Ok (Path, u, c :: v)
  else if char_eqb c "?" then Ok (Query, u, v)
  else Ok (Fragment, u, v).
Proof.
  cbn [parse_step]. unfold front, at_. cbn.
  destruct (char_eqb c "/"); [reflexivity|].
  destruct (char_eqb c "?"); reflexivity.
Qed.

(** Every turn of the loop keeps [parse_inv]. *)
Lemma parse_step_inv (s : strv) (step : ParsingSteps) (u : URI) (v : strv)
      (step' : ParsingSteps) (u' : URI) (v' : strv) :
  v ≠ [] → parse_inv s step u v →
  parse_step step u v = Ok (step', u', v') →
  parse_inv s step' u' v'.
Proof.
  intros Hne [Hpath Hauth] Hstep. destruct step.
  - (* Scheme *)
    cbn [parse_step] in Hstep.
    destruct (tryParseScheme_Ok u v) as (u1 & v1 & E & Ha & Hp & pre & Hpre).
    rewrite E in Hstep. cbn [mbind result_bind] in Hstep. injection Hstep as <- <- <-.
    destruct Hauth as [Hf [pre0 Hs]]. split.
    + unfold path_inv, path_fresh in *. congruence.
    + split; [congruence|]. exists (pre0 ++ pre). rewrite <- app_assoc, <- Hpre. exact Hs.
  - (* CheckAuthority *)
    destruct (parse_step_CheckAuthority u v) as (st & v1 & E & [pre Hpre] & Hst).
    rewrite E in Hstep. injection Hstep as <- <- <-.
    destruct Hauth as [Hf [pre0 Hs]].
    destruct Hst as [-> | [-> ->]].
    + split; [exact Hpath|]. split; [exact Hf|].
      exists (pre0 ++ pre). rewrite <- app_assoc, <- Hpre. exact Hs.
    + split; [left; exact Hpath|].
      exists s, [], []. rewrite !app_nil_r. split; [reflexivity|].
      split; [|left; reflexivity].
      injection Hf as Hu Hh Hp. exists []. rewrite Hu, Hh, Hp. split; [reflexivity | auto].
  - (* Authority *)
    cbn [parse_step] in Hstep.
    destruct (tryParseAuthority_cases u v)
      as [[E _] | (u1 & v1 & authority & E & Hsplit & Hrest & _ & Hp & Htext)];
      rewrite E in Hstep; [discriminate|].
    cbn [mbind result_bind] in Hstep. injection Hstep as <- <- <-.
    destruct Hauth as [Hf [pre0 Hs]]. split.
    + left. unfold path_inv, path_fresh in *. congruence.
    + exists pre0, authority, v1. rewrite <- Hsplit. auto.
  - (* CheckSeparator *)
    destruct v as [|c v]; [congruence|].
    rewrite parse_step_CheckSeparator in Hstep.
    assert (Hok : path_ok u).
    { destruct Hpath as [Hf | [Hok _]]; [apply path_fresh_ok; exact Hf | exact Hok]. }
    destruct (char_eqb c "/") eqn:Hc.
    + injection Hstep as <- <- <-. split; [|exact Hauth].
      destruct Hpath as [Hf | [_ Hns]]; [exact Hf|].
      apply char_eqb_eq in Hc as ->. discriminate Hns.
    + destruct (char_eqb c "?"); injection Hstep as <- <- <-; split; assumption.
  - (* Path *)
    cbn [parse_step] in Hstep. inv_bind Hstep. destruct a as [u1 v1].
    injection Hstep as <- <- <-.
    apply tryParsePath_Ok in Ha
      as (uri1 & _ & Hsplit & Hrest & _ & (segs & Hsegs & Hconcat) & Habs & Hfields).
    injection Hpath as Hp0 Hs0 Ha0. split.
    + right.
      assert (Hns : starts_with PATH_SEP v1 = false)
        by (apply (starts_in_not_slash (QUERY_ANON ++ FRAG_SEP)); [reflexivity | exact Hrest]).
      split; [|exact Hns]. split.
      * rewrite Hsegs, Hs0. exact Hconcat.
      * rewrite Habs, Ha0, orb_false_r, Hsplit.
        destruct (path_ u1) as [|x t] eqn:Hp1.
        -- rewrite app_nil_l, Hns. split; [discriminate | intros [t [=]]].
        -- change PATH_SEP with ["/"%char]. cbn [app starts_with].
           rewrite andb_true_r. split.
           ++ intros E. apply char_eqb_eq in E as <-. eauto.
           ++ intros [t' [= <- _]]. apply char_eqb_eq. reflexivity.
    + destruct Hauth as (pre & authority & post & Hs & (tail & Ht & Hport) & Hpost).
      injection Hfields as Hu Hh Hp. exists pre, authority, post.
      split; [exact Hs|]. split; [|exact Hpost].
      exists tail. rewrite Hu, Hh, Hp. auto.
  - (* Fragment *)
    destruct v as [|c v]; [congruence|].
    cbn [parse_step] in Hstep. rewrite tryParseFragment_cons in Hstep.
    cbn [mbind result_bind] in Hstep. injection Hstep as <- <- <-.
    split; assumption.
  - (* Query *)
    cbn [parse_step] in Hstep. rewrite tryParseQuery_eq in Hstep.
    destruct (forallb has_kv_sep (query_pieces (query_text v))); [|discriminate].
    cbn [mbind result_bind] in Hstep. injection Hstep as <- <- <-.
    split; assumption.
Qed.

Lemma parse_loop_inv (s : strv) (fuel : nat) (step : ParsingSteps) (u : URI) (v : strv)
      (u' : URI) :
  parse_inv s step u v → parse_loop fuel step u v = Ok u' →
  ∃ step', parse_inv s step' u' [].
Proof.
  revert step u v. induction fuel as [|fuel IH]; intros step u v Hinv Hloop.
  - destruct v; [|discriminate]. injection Hloop as <-. eauto.
  - destruct v as [|c v].
    { injection Hloop as <-. eauto. }
    cbn [parse_loop empty] in Hloop. inv_bind Hloop. destruct a as [[step1 u1] v1].
    apply (IH step1 u1 v1); [|exact Hloop].
    apply (parse_step_inv s step u (c :: v)); [discriminate | exact Hinv | exact Ha].
Qed.

(** What holds of every value that the constructor returns. *)
Lemma URI_ctor_inv (s : strv) (u : URI) :
  URI_ctor s = Ok u → path_ok u ∧ auth_shape s u.
Proof.
  unfold URI_ctor, parse. cbn [uri_ URI_of].
  assert (H0 : parse_inv s Scheme (URI_of s) s).
  { split; [reflexivity|]. split; [reflexivity|]. exists []. reflexivity. }
  intros H. inv_bind H. destruct a as [r u0]. cbn [snd] in H. injection H as ->.
  assert (∃ step', parse_inv s step' u []) as [step' [Hp Ha']].
  { destruct (empty s) eqn:He.
    - apply empty_true in He. subst s. injection Ha as _ <-. eauto.
    - inv_bind Ha. injection Ha as _ <-.
      apply (parse_loop_inv s _ _ _ _ _ H0 Ha0). }
  split.
  - destruct step'; cbn [path_inv] in Hp;
      try (apply path_fresh_ok; exact Hp); try exact Hp.
    destruct Hp as [Hp | [Hp _]]; [apply path_fresh_ok|]; exact Hp.
  - destruct step'; cbn [auth_inv] in Ha'; try exact Ha';
      destruct Ha' as [[= Hu Hh Hpt] [pre Hs]];
      exists s, [], []; rewrite !app_nil_r; (split; [reflexivity|]);
      (split; [|left; reflexivity]);
      exists []; rewrite Hu, Hh, Hpt; (split; [reflexivity | auto]).
Qed.

(** *** Failures and termination of the loop *)

Lemma remove_prefix_Err (n : nat) (v : strv) (e : error) :
  remove_prefix n v = Err e → e = OutOfBounds.
Proof. unfold remove_prefix. destruct (n <=? length v)%nat; congruence. Qed.

Lemma front_Err (v : strv) (e : error) : front v = Err e → e = OutOfBounds ∧ v = [].
Proof. destruct v; [intros [= <-]; auto | discriminate]. Qed.

(** [tryParsePath] fails only by reading the first byte of an empty cursor. *)
Lemma tryParsePath_Err (u : URI) (uri : strv) (e : error) :
  tryParsePath u uri = Err e → e = OutOfBounds.
Proof.
  unfold tryParsePath. intros H.
  apply bind_Err in H as [H | (uri1 & _ & H)].
  { destruct (hasAuthority u); [apply remove_prefix_Err in H; exact H | discriminate]. }
  apply bind_Err in H as [H | (c & _ & H)]; [apply front_Err in H as [-> _]; reflexivity|].
  change (front PATH_SEP) with (Ok "/"%char) in H. cbn [mbind result_bind] in H.
  apply bind_Err in H as [H | (segs & _ & H)].
  { match type of H with path_loop ?f ?pv ?sg = _ =>
      destruct (path_loop_concat f pv sg) as (segs' & E & _); [reflexivity|] end.
    rewrite E in H. discriminate. }
  apply bind_Err in H as [H | (r & _ & H)]; [|discriminate].
  apply remove_prefix_Err in H. exact H.
Qed.

(** The failures of one turn of the loop. *)
Lemma parse_step_Err (step : ParsingSteps) (u : URI) (v : strv) (e : error) :
  parse_step step u v = Err e →
  e = MalformedUser ∨ e = MalformedQuery ∨ e = OutOfBounds.
Proof.
  intros H. destruct step.
  - cbn [parse_step] in H.
    destruct (tryParseScheme_Ok u v) as (u1 & v1 & E & _). rewrite E in H. discriminate.
  - destruct (parse_step_CheckAuthority u v) as (st & v1 & E & _). congruence.
  - cbn [parse_step] in H.
    destruct (tryParseAuthority_cases u v) as [[E _] | (u1 & v1 & a & E & _)];
      rewrite E in H; [injection H as <-; auto | discriminate].
  - destruct v as [|c v].
    + injection H as <-. auto.
    + rewrite parse_step_CheckSeparator in H.
      destruct (char_eqb c "/"); [discriminate|].
      destruct (char_eqb c "?"); discriminate.
  - cbn [parse_step] in H. apply bind_Err in H as [H | ([u1 v1] & _ & H)]; [|discriminate].
    apply tryParsePath_Err in H. auto.
  - destruct v as [|c v].
    + injection H as <-. auto.
    + cbn [parse_step] in H. rewrite tryParseFragment_cons in H. discriminate.
  - cbn [parse_step] in H. rewrite tryParseQuery_eq in H.
    destruct (forallb has_kv_sep (query_pieces (query_text v)));
      [discriminate | injection H as <-; auto].
Qed.

(** Every turn of the loop exhausts the cursor or lowers [steps_bound]. *)
Lemma parse_step_progress (step : ParsingSteps) (u : URI) (v : strv)
      (step' : ParsingSteps) (u' : URI) (v' : strv) :
  v ≠ [] → parse_step step u v = Ok (step', u', v') →
  v' = [] ∨ (steps_bound step' v' < steps_bound step v)%nat.
Proof.
  intros Hne H. destruct step.
  - cbn [parse_step] in H. inv_bind H. destruct a. injection H as <- _ _.
    right. cbn. lia.
  - destruct (parse_step_CheckAuthority u v) as (st & v1 & E & _ & Hst).
    rewrite E in H. injection H as <- <-. right.
    destruct Hst as [-> | [-> _]]; cbn [steps_bound]; [lia|].
    destruct (starts_with PATH_SEP v'); lia.
  - cbn [parse_step] in H. inv_bind H. destruct a. injection H as <- _ _.
    right. cbn [steps_bound]. destruct (starts_with PATH_SEP v'); lia.
  - destruct v as [|c v]; [congruence|].
    rewrite parse_step_CheckSeparator in H. right.
    cbn [steps_bound]. change PATH_SEP with ["/"%char]. cbn [starts_with].
    rewrite andb_true_r, (char_eqb_sym "/" c).
    destruct (char_eqb c "/"); [injection H as <- _ _; cbn; lia|].
    destruct (char_eqb c "?"); injection H as <- _ _; cbn; lia.
  - cbn [parse_step] in H. inv_bind H. destruct a as [u1 v1]. injection H as <- <- <-.
    apply tryParsePath_Ok in Ha as (uri1 & _ & _ & Hrest & _).
    right. cbn [steps_bound].
    rewrite (starts_in_not_slash (QUERY_ANON ++ FRAG_SEP)); [lia | reflexivity | exact Hrest].
  - destruct v as [|c v]; [congruence|].
    cbn [parse_step] in H. rewrite tryParseFragment_cons in H.
    injection H as _ _ <-. left. reflexivity.
  - cbn [parse_step] in H. inv_bind H. destruct a. injection H as <- _ _.
    right. cbn. lia.
Qed.

(** With as much fuel as [steps_bound] the loop never runs out of it. *)
Lemma parse_loop_fuel (fuel : nat) (step : ParsingSteps) (u : URI) (v : strv) :
  (steps_bound step v ≤ fuel)%nat → parse_loop fuel step u v ≠ Err OutOfFuel.
Proof.
  revert step u v. induction fuel as [|fuel IH]; intros step u v Hb.
  - destruct step; cbn [steps_bound] in Hb; try lia.
    destruct (starts_with PATH_SEP v); lia.
  - destruct v as [|c v]; [discriminate|].
    cbn [parse_loop empty].
    destruct (parse_step step u (c :: v)) as [[[step1 u1] v1]|e] eqn:E.
    + cbn [mbind result_bind].
      assert (Hne : c :: v ≠ []) by discriminate.
      destruct (parse_step_progress _ _ _ _ _ _ Hne E) as [-> | Hlt].
      * destruct fuel; discriminate.
      * apply IH. lia.
    + cbn [mbind result_bind]. apply parse_step_Err in E.
      destruct E as [-> | [-> | ->]]; discriminate.
Qed.

Lemma parse_loop_Err (fuel : nat) (step : ParsingSteps) (u : URI) (v : strv) (e : error) :
  parse_loop fuel step u v = Err e →
  e = MalformedUser ∨ e = MalformedQuery ∨ e = OutOfBounds ∨ e = OutOfFuel.
Proof.
  revert step u v. induction fuel as [|fuel IH]; intros step u v H.
  - destruct v; [discriminate|]. injection H as <-. auto.
  - destruct v as [|c v]; [discriminate|]. cbn [parse_loop empty] in H.
    apply bind_Err in H as [H | ([[step1 u1] v1] & _ & H)].
    + apply parse_step_Err in H. tauto.
    + apply IH in H. exact H.
Qed.

(** The constructor never runs out of fuel: its failures are the two throws
    of the parser and the read of an empty cursor. *)
Lemma URI_ctor_Err (s : strv) (e : error) :
  URI_ctor s = Err e → e = MalformedUser ∨ e = MalformedQuery ∨ e = OutOfBounds.
Proof.
  unfold URI_ctor, parse. cbn [uri_ URI_of]. intros H.
  destruct (empty s); [discriminate|].
  destruct (parse_loop PARSE_FUEL Scheme (URI_of s) s) as [u|e'] eqn:E; [discriminate|].
  injection H as <-.
  assert (Hb : (steps_bound Scheme s ≤ PARSE_FUEL)%nat) by reflexivity.
  pose proof (parse_loop_fuel PARSE_FUEL Scheme (URI_of s) s Hb) as Hf.
  destruct (parse_loop_Err _ _ _ _ _ E) as [?|[?|[?|?]]]; auto. congruence.
Qed.

(** ** Claims about parsed values *)

(** C6. For every value the constructor returns, the concatenation of the
    path segments, in order, is the stored path text. *)
Theorem path_segments_concat (s : strv) (u : URI) :
  URI_ctor s = Ok u → concat (pathSegments_ u) = path_ u.
Proof. intros H. apply URI_ctor_inv in H as [[Hc _] _]. exact Hc. Qed.

Lemma path_segments_concat_witness :
  ∃ u, URI_ctor (str "http://user@example.com:8080/a/b/c?x=1&y=2#frag") = Ok u
       ∧ pathSegments_ u = [str "a/"; str "b/"; str "c"]
       ∧ concat (pathSegments_ u) = path_ u.
Proof.
  eexists. split; [vm_compute; reflexivity|]. split; [reflexivity|].
  apply (path_segments_concat (str "http://user@example.com:8080/a/b/c?x=1&y=2#frag")).
  vm_compute. reflexivity.
Defined.

(** C2 (as the code has it). For every value the constructor returns, the
    flag [isAbsolutePath] is set exactly when the stored path begins with
    ['/'].  [tryParsePath] drops one byte of the cursor before it stores the
    path when an authority was found, and none otherwise, so the ['/'] that
    follows an authority is not part of the stored path.  Parsing
    ["//host/path"] gives no scheme, host ["host"], path ["path"] and a flag
    that is not set. *)
Theorem absolute_path_iff_stored_slash :
  (∀ s u, URI_ctor s = Ok u →
          (isAbsolutePath u = true ↔ ∃ t, path_ u = "/"%char :: t))
  ∧ (∀ u uri u' rest, tryParsePath u uri = Ok (u', rest) →
       if hasAuthority u then ∃ c, uri = c :: path_ u' ++ rest
       else uri = path_ u' ++ rest)
  ∧ URI_ctor (str "//host/path") =
    Ok {| uri_ := str "//host/path";
          isAbsolutePath_ := false;
          scheme_ := [];
          user_ := [];
          host_ := str "host";
          port_ := [];
          path_ := str "path";
          queryLine_ := [];
          fragment_ := [];
          pathSegments_ := [str "path"];
          queries_ := ∅ |}.
Proof.
  split; [|split].
  - intros s u H. apply URI_ctor_inv in H as [[_ Ha] _]. exact Ha.
  - intros u uri u' rest H.
    apply tryParsePath_Ok in H as (uri1 & Hcut & Hsplit & _).
    destruct (hasAuthority u).
    + destruct Hcut as [c ->]. exists c. rewrite Hsplit. reflexivity.
    + rewrite Hcut. exact Hsplit.
  - vm_compute. reflexivity.
Qed.

Lemma absolute_path_iff_stored_slash_witness :
  ∃ u, URI_ctor (str "http://host//x") = Ok u
       ∧ path_ u = str "/x"
       ∧ (isAbsolutePath u = true ↔ ∃ t, path_ u = "/"%char :: t).
Proof.
  eexists. split; [vm_compute; reflexivity|]. split; [reflexivity|].
  apply (proj1 absolute_path_iff_stored_slash (str "http://host//x")).
  vm_compute. reflexivity.
Defined.

(** C2 fails as stated: the parse of ["//host/path"] does not yield the path
    ["/path"] with the flag set. *)
Lemma parse_host_path_not_as_claimed :
  ¬ ∃ u, URI_ctor (str "//host/path") = Ok u
         ∧ scheme u = None ∧ host u = Some (str "host")
         ∧ path u = Some (str "/path") ∧ isAbsolutePath u = true.
Proof.
  intros (u & Hu & _ & _ & _ & Ha). vm_compute in Hu. injection Hu as <-.
  discriminate Ha.
Qed.

(** C5 (as the code has it). For every value the constructor returns, if the
    host is empty then the input holds, in one piece, the userinfo (the user
    and its ['@'], or nothing) followed at once by nothing, when the port is
    empty, or by [':'] and the port; the piece ends the input or stands
    before ['/'], ['#'] or ['?'].  The user and the port need not be empty. *)
Theorem empty_host_authority_shape (s : strv) (u : URI) :
  URI_ctor s = Ok u → host_ u = [] →
  ∃ pre tail post,
    s = pre ++ user_part (user_ u) ++ tail ++ post
    ∧ (tail = [] ∧ port_ u = [] ∨ tail = PORT_SEP ++ port_ u)
    ∧ starts_in (PATH_SEP ++ FRAG_SEP ++ QUERY_ANON) post.
Proof.
  intros H Hh. apply URI_ctor_inv in H as [_ Hs].
  destruct Hs as (pre & authority & post & Hs & (tail & Ha & Ht) & Hpost).
  exists pre, tail, post. split; [|auto].
  rewrite Hs, Ha, Hh, app_nil_l, <- app_assoc. reflexivity.
Qed.

Lemma empty_host_authority_shape_witness :
  ∃ u, URI_ctor (str "//bob@:80/x") = Ok u
       ∧ user_ u = str "bob" ∧ host_ u = [] ∧ port_ u = str "80"
       ∧ ∃ pre tail post,
           str "//bob@:80/x" = pre ++ user_part (user_ u) ++ tail ++ post
           ∧ (tail = [] ∧ port_ u = [] ∨ tail = PORT_SEP ++ port_ u)
           ∧ starts_in (PATH_SEP ++ FRAG_SEP ++ QUERY_ANON) post.
Proof.
  eexists. split; [vm_compute; reflexivity|].
  split; [reflexivity|]. split; [reflexivity|]. split; [reflexivity|].
  apply (empty_host_authority_shape (str "//bob@:80/x")); vm_compute; reflexivity.
Defined.

(** C5 fails as stated: the parse of ["//bob@:80/x"] has an empty host, the
    user ["bob"] and the port ["80"]. *)
Lemma empty_host_with_user_and_port :
  ¬ (∀ u, URI_ctor (str "//bob@:80/x") = Ok u →
          host_ u = [] → port_ u = [] ∧ user_ u = []).
Proof.
  intros H.
  destruct (H (mkURI (str "//bob@:80/x") true [] (str "bob") [] (str "80") (str "/x")
                     [] [] [str "/"; str "x"] ∅)) as [Hp _].
  - vm_compute. reflexivity.
  - reflexivity.
  - discriminate Hp.
Qed.

(** C7 fails as stated: the parse of ["http://h?a=1&"] reaches the query
    text ["a=1&"] and succeeds, although the piece after the final ['&'] is
    empty and so holds no ['=']. *)
Lemma trailing_amp_not_malformed :
  (∃ u, URI_ctor (str "http://h?a=1&") = Ok u ∧ queryLine_ u = str "a=1&")
  ∧ ∃ piece, piece ∈ split_on "&" (str "a=1&") ∧ "="%char ∉ piece.
Proof.
  split.
  - eexists. split; [vm_compute; reflexivity | reflexivity].
  - exists []. split; [|apply not_elem_of_nil].
    vm_compute. apply elem_of_cons. right. apply elem_of_cons. left. reflexivity.
Qed.
